(** * FocusedDatabaseMapper: a shallow embedding of [focused_mapper.py]

    The mapper object is a record of its attributes; every method takes the
    record (and, where it touches them, the two cache files) and returns the
    updated one.  Dictionaries are finite maps, Python sets are finite sets,
    [defaultdict(list)] is a finite map read with the default [[]].

    Conventions of the model:
    - the two JSON files hold typed values; [json.dump] writes a tuple as
      an array and [json.load] reads an array as a list, so an edge that was
      a tuple in memory comes back as a list ([as_json]);
    - [str.lower] is a parameter [lower] of the definitions that call it:
      its Unicode case table is not part of the repository; the examples
      use [ascii_lower], which agrees with it on ASCII names;
    - writing a file succeeds (the methods catch and report a failure);
    - the database is a record of what the driver answers, [None] for a
      raised exception;
    - [datetime.now().isoformat()] is the argument [now];
    - [progress_callback] is left at its default [None];
    - a restored mapper shares its lists with [mapping_cache] in Python; the
      record keeps [mapping_cache] as loaded. *)

From Stdlib Require Import ZArith Lia Ascii.
From stdpp Require Import base option list gmap strings pretty sorting.

Local Open Scope string_scope.
Local Open Scope Z_scope.
Local Open Scope list_scope.

(** ** Data model *)

(** One element of [table_columns[t]]: [{'name': ..., 'type': ...}]. *)
Record column := Column { col_name : string; col_type : string }.

(** One element of [relationships[t]] or [reverse_relationships[t]]: a
    3-tuple [(next_table, src_col, tgt_col)] as the loops of [find_path]
    unpack it. *)
Abbreviation edge := (string * string * string)%type.

(** The same element as Python holds it: the tuple the mapping loop appends
    (line 353), or the list [json.load] gives for the array written for it.
    The [for] loops unpack both alike; [==] tells them apart. *)
Inductive stored_edge :=
  | AsTuple (e : edge)
  | AsList (e : edge).

Definition unpack (x : stored_edge) : edge :=
  match x with
  | AsTuple e => e
  | AsList e => e
  end.

(** A path is the Python list of strings: table, label, table, ... *)
Abbreviation path := (list string).

(** The value [_save_to_cache] stores under a key of [path_cache]. *)
Record cache_entry := CacheEntry {
  ce_paths : list path;
  ce_timestamp : string;
  ce_source : string;
  ce_target : string;
  ce_max_depth : Z
}.

(** The JSON object of [mapping_cache.json].  The code reads every key with
    [.get(key, default)], so each key may be absent; the empty dictionary
    [{}] is the record with every key absent. *)
Record mapping_cache_data := MappingCache {
  mc_patterns : option (list string);
  mc_db_info : option string;
  mc_timestamp : option string;
  mc_table_columns : option (gmap string (list column));
  mc_relationships : option (gmap string (list stored_edge));
  mc_reverse_relationships : option (gmap string (list stored_edge));
  mc_all_tables : option (list string);
  mc_total_tables : option nat;
  mc_total_fks : option nat
}.

Definition mc_empty : mapping_cache_data :=
  MappingCache None None None None None None None None None.

(** Truth value of the dictionary: [{}] is the only falsy one. *)
Definition mc_truthy (c : mapping_cache_data) : bool :=
  bool_decide (is_Some (mc_patterns c)) || bool_decide (is_Some (mc_db_info c))
  || bool_decide (is_Some (mc_timestamp c))
  || bool_decide (is_Some (mc_table_columns c))
  || bool_decide (is_Some (mc_relationships c))
  || bool_decide (is_Some (mc_reverse_relationships c))
  || bool_decide (is_Some (mc_all_tables c))
  || bool_decide (is_Some (mc_total_tables c))
  || bool_decide (is_Some (mc_total_fks c)).

(** The attributes of a [FocusedDatabaseMapper] ([cache_file] and
    [mapping_cache_file] are constants and live in [disk]). *)
Record mapper := Mapper {
  db_type : string;
  connection_params : gmap string string;
  patterns : list string;
  relationships : gmap string (list stored_edge);
  reverse_relationships : gmap string (list stored_edge);
  table_columns : gmap string (list column);
  all_tables : gset string;
  path_cache : gmap string cache_entry;
  mapping_cache : mapping_cache_data
}.

(** The two JSON files; [None] is a file that does not exist (or does not
    parse, which [_load_cache] and [_load_mapping_cache] treat alike). *)
Record disk := Disk {
  path_cache_file : option (gmap string cache_entry);
  mapping_cache_file : option mapping_cache_data
}.

Definition set_path_cache (pc : gmap string cache_entry) (s : mapper) : mapper :=
  Mapper (db_type s) (connection_params s) (patterns s) (relationships s)
    (reverse_relationships s) (table_columns s) (all_tables s) pc
    (mapping_cache s).

(** ** Path cache *)

(** [_load_cache] *)
Definition _load_cache (d : disk) : gmap string cache_entry :=
  default ∅ (path_cache_file d).

(** [_save_cache]: the whole dictionary is written over the file. *)
Definition _save_cache (s : mapper) (d : disk) : disk :=
  Disk (Some (path_cache s)) (mapping_cache_file d).

(** [_get_cache_key]: [f"{source}→{target}:{max_depth}"]. *)
Definition _get_cache_key (source target : string) (max_depth : Z) : string :=
  source +:+ "→" +:+ target +:+ ":" +:+ pretty max_depth.

(** [_get_from_cache] *)
Definition _get_from_cache (s : mapper) (source target : string)
    (max_depth : Z) : option cache_entry :=
  path_cache s !! _get_cache_key source target max_depth.

(** [_save_to_cache]; [now] is [datetime.now().isoformat()]. *)
Definition _save_to_cache (now : string) (s : mapper) (d : disk)
    (source target : string) (max_depth : Z) (paths : list path)
    : mapper * disk :=
  let cache_key := _get_cache_key source target max_depth in
  let s' := set_path_cache
    (<[cache_key := CacheEntry paths now source target max_depth]> (path_cache s)) s in
  (s', _save_cache s' d).

(** ** Path finder *)

(** The list stored under a key, [[]] when there is none. *)
Definition stored (m : gmap string (list stored_edge)) (t : string)
    : list stored_edge :=
  default [] (m !! t).

(** Adjacency lookup [d.get(t, [])], its elements as the [for] loop unpacks
    them: no entry is created. *)
Definition adj (m : gmap string (list stored_edge)) (t : string) : list edge :=
  unpack <$> stored m t.

Definition forward_label (src_col tgt_col : string) : string :=
  "--" +:+ src_col +:+ "-->" +:+ tgt_col +:+ "-->".

Definition reverse_label (src_col tgt_col : string) : string :=
  "<--" +:+ tgt_col +:+ "<--" +:+ src_col +:+ "--".

(** The work queue and the result list as the loop carries them. *)
Abbreviation work := (list (string * path) * list path)%type.

(** Body of one [for next_table, src_col, tgt_col in ...] iteration. *)
Definition visit_edge (label : string → string → string) (target : string)
    (max_depth : Z) (visited : gset string) (p : path) (w : work) (e : edge)
    : work :=
  let '(next_table, src_col, tgt_col) := e in
  let new_path := p ++ [label src_col tgt_col; next_table] in
  if decide (next_table = target) then (fst w, snd w ++ [new_path])
  else if decide ((next_table ∉ visited) ∧ (Z.of_nat (length p) < max_depth))
       then (fst w ++ [(next_table, new_path)], snd w)
       else w.

Definition visit_edges (label : string → string → string) (target : string)
    (max_depth : Z) (visited : gset string) (p : path) (edges : list edge)
    (w : work) : work :=
  foldl (visit_edge label target max_depth visited p) w edges.

(** One expansion of a dequeued table: forward edges, then reverse edges. *)
Definition expand (s : mapper) (target : string) (max_depth : Z)
    (visited : gset string) (current : string) (p : path) (w : work) : work :=
  visit_edges reverse_label target max_depth visited p
    (adj (reverse_relationships s) current)
    (visit_edges forward_label target max_depth visited p
       (adj (relationships s) current) w).

(** The [while queue and len(paths) < 10] loop.  [fuel] bounds the number of
    iterations; [None] means the bound was too small. *)
Fixpoint search (fuel : nat) (s : mapper) (target : string) (max_depth : Z)
    (queue : list (string * path)) (visited : gset string)
    (paths : list path) : option (list path) :=
  match queue with
  | [] => Some paths
  | (current_table, p) :: queue' =>
    if decide (length paths < 10)%nat then
      match fuel with
      | O => None
      | S fuel' =>
        if decide (max_depth < Z.of_nat (length p)) then
          search fuel' s target max_depth queue' visited paths
        else if decide (current_table ∈ visited) then
          search fuel' s target max_depth queue' visited paths
        else
          let visited' := {[current_table]} ∪ visited in
          let w := expand s target max_depth visited' current_table p
                     (queue', paths) in
          search fuel' s target max_depth (fst w) visited' (snd w)
      end
    else Some paths
  end.

(** Number of adjacency entries of the graph, forward and reverse. *)
Definition edge_count (m : gmap string (list stored_edge)) : nat :=
  map_fold (λ _ es n, (length es + n)%nat) O m.

(** An iteration bound for [search] from the one-entry queue. *)
Definition search_fuel (s : mapper) : nat :=
  S (edge_count (relationships s) + edge_count (reverse_relationships s)).

(** [find_path] *)
Definition find_path (now : string) (s : mapper) (d : disk)
    (source_table target_table : string) (max_depth : Z)
    : option (list path * mapper * disk) :=
  if decide (table_columns s !! source_table = None
             ∨ table_columns s !! target_table = None) then Some ([], s, d)
  else if decide (source_table = target_table) then
    Some ([[source_table]], s, d)
  else
    match _get_from_cache s source_table target_table max_depth with
    | Some cached_result => Some (ce_paths cached_result, s, d)
    | None =>
      paths ← search (search_fuel s) s target_table max_depth
                 [(source_table, [source_table])] ∅ [];
      let '(s', d') :=
        _save_to_cache now s d source_table target_table max_depth paths in
      Some (paths, s', d')
    end.

(** ** Strings *)

(** Lowering of the ASCII letters (bytes outside A-Z are kept): what
    [str.lower()] does on ASCII strings.  Used in the examples only. *)
Definition lower_ascii (c : ascii) : ascii :=
  let n := N_of_ascii c in
  if ((65 <=? n) && (n <=? 90))%N then ascii_of_N (n + 32) else c.

Fixpoint ascii_lower (s : string) : string :=
  match s with
  | EmptyString => EmptyString
  | String c s' => String (lower_ascii c) (ascii_lower s')
  end.

(** [needle in hay] for strings. *)
Fixpoint contains (needle hay : string) : bool :=
  String.prefix needle hay
  || match hay with
     | EmptyString => false
     | String _ hay' => contains needle hay'
     end.

(** Truth value of a table name a driver returned: [None] (SQL NULL) and
    the empty string are falsy. *)
Definition truthy (t : option string) : bool :=
  match t with
  | Some t => negb (String.eqb t "")
  | None => false
  end.

(** [sorted(...)] on strings. *)
Definition sorted : list string → list string :=
  merge_sort (λ a b : string, String.leb a b).

(** ** The database, as the mapper sees it

    What the driver answers to each call of one mapping run; [None] is a
    raised exception, and [false] a refused connection.  The queries that
    take a table list are functions of it. *)
Record fk_row := FkRow {
  fk_source_table : option string;
  fk_source_column : string;
  fk_target_table : option string;
  fk_target_column : string
}.

Record database := Database {
  connect_discovery : bool;
  list_tables : option (list string);
  list_related : list string → option (list (string * option string));
  connect_mapping : bool;
  list_foreign_keys : list string → option (list fk_row);
  list_columns : list string → option (list (string * string * string))
}.

(** ** Mapper construction and attribute updates *)

Definition default_patterns : list string :=
  ["pmact"; "wf"; "workflow"; "activity"; "process"; "user"].

(** What a dictionary is after [json.dump] and [json.load]: every edge a
    list. *)
Definition as_json_edges (m : gmap string (list stored_edge))
    : gmap string (list stored_edge) :=
  (λ es : list stored_edge, (λ x, AsList (unpack x)) <$> es) <$> m.

Definition as_json (c : mapping_cache_data) : mapping_cache_data :=
  MappingCache (mc_patterns c) (mc_db_info c) (mc_timestamp c)
    (mc_table_columns c)
    (as_json_edges <$> mc_relationships c)
    (as_json_edges <$> mc_reverse_relationships c)
    (mc_all_tables c) (mc_total_tables c) (mc_total_fks c).

(** [_load_mapping_cache]: [json.load] of the file, or [{}]. *)
Definition _load_mapping_cache (d : disk) : mapping_cache_data :=
  default mc_empty (as_json <$> mapping_cache_file d).

(** [__init__]; [patterns = None] is the default argument, and
    [patterns or [...]] also replaces an empty list. *)
Definition __init__ (lower : string → string) (db_type : string)
    (connection_params : gmap string string)
    (patterns : option (list string)) (d : disk) : mapper :=
  Mapper (lower db_type) connection_params
    (match patterns with
     | Some (p :: ps) => p :: ps
     | _ => default_patterns
     end)
    ∅ ∅ ∅ ∅ (_load_cache d) (_load_mapping_cache d).

Definition set_all_tables (ts : gset string) (s : mapper) : mapper :=
  Mapper (db_type s) (connection_params s) (patterns s) (relationships s)
    (reverse_relationships s) (table_columns s) ts (path_cache s)
    (mapping_cache s).

Definition set_relationships (fwd rev : gmap string (list stored_edge))
    (s : mapper)
    : mapper :=
  Mapper (db_type s) (connection_params s) (patterns s) fwd rev
    (table_columns s) (all_tables s) (path_cache s) (mapping_cache s).

Definition set_table_columns (tc : gmap string (list column)) (s : mapper)
    : mapper :=
  Mapper (db_type s) (connection_params s) (patterns s) (relationships s)
    (reverse_relationships s) tc (all_tables s) (path_cache s)
    (mapping_cache s).

(** ** Mapping cache *)

(** [f"{self.db_type}_{self.connection_params.get('database', 'unknown')}"] *)
Definition db_info (s : mapper) : string :=
  db_type s +:+ "_" +:+ default "unknown" (connection_params s !! "database").

(** [_save_mapping_cache]: the mapper is not changed, the file is
    overwritten with what [json.dump] writes; ['total_fks'] is
    [sum(len(v) for v in self.relationships.values())]. *)
Definition _save_mapping_cache (now : string) (s : mapper) (d : disk) : disk :=
  let cache_data := MappingCache
    (Some (sorted (patterns s)))
    (Some (db_info s))
    (Some now)
    (Some (table_columns s))
    (Some ((λ v : list stored_edge, v) <$> relationships s))
    (Some ((λ v : list stored_edge, v) <$> reverse_relationships s))
    (Some (elements (all_tables s)))
    (Some (size (table_columns s)))
    (Some (edge_count (relationships s))) in
  Disk (path_cache_file d) (Some (as_json cache_data)).

(** [defaultdict(list)] filled by [for table, relations in data.items()]. *)
Definition rebuild (data : gmap string (list stored_edge))
    : gmap string (list stored_edge) :=
  map_fold (λ table relations acc, <[table := relations]> acc) ∅ data.

(** [_load_from_mapping_cache] *)
Definition _load_from_mapping_cache (s : mapper) : bool * mapper :=
  let c := mapping_cache s in
  if negb (mc_truthy c) then (false, s)
  else
    let cached_patterns : gset string :=
      list_to_set (default [] (mc_patterns c)) in
    let current_patterns : gset string := list_to_set (patterns s) in
    let cached_db := default "" (mc_db_info c) in
    let current_db := db_info s in
    if decide (¬ current_patterns ⊆ cached_patterns ∨ cached_db ≠ current_db)
    then (false, s)
    else
      (true,
       Mapper (db_type s) (connection_params s) (patterns s)
         (rebuild (default ∅ (mc_relationships c)))
         (rebuild (default ∅ (mc_reverse_relationships c)))
         (default ∅ (mc_table_columns c))
         (list_to_set (default [] (mc_all_tables c)))
         (path_cache s) (mapping_cache s)).

(** ** Discovery and mapping *)

Definition networked (s : mapper) : bool :=
  bool_decide (db_type s = "postgresql") || bool_decide (db_type s = "mysql").

(** [connect]: a driver is chosen by [db_type]; for any other type the
    method returns [None], and the [conn.cursor()] that follows raises. *)
Definition connect (s : mapper) (accepted : bool) : option unit :=
  if (networked s || bool_decide (db_type s = "sqlite")) && accepted
  then Some () else None.

(** A table is relevant when some pattern occurs in its lowered name. *)
Definition relevant (lower : string → string) (pats : list string)
    (table : string) : bool :=
  existsb (λ pattern, contains (lower pattern) (lower table)) pats.

(** [get_relevant_tables]; [None] is an exception leaving the method.  The
    second query runs for the two networked types only; for sqlite the
    second [fetchall()] finds the cursor exhausted. *)
Definition get_relevant_tables (lower : string → string) (s : mapper)
    (db : database) : option (list string * mapper) :=
  _ ← connect s (connect_discovery db);
  all ← list_tables db;
  let relevant_tables : gset string :=
    list_to_set (filter (λ t, relevant lower (patterns s) t = true) all) in
  rows ← (if networked s then list_related db (elements relevant_tables)
          else Some []);
  let relevant_tables :=
    foldl (λ (acc : gset string) (row : string * option string),
             let acc := {[fst row]} ∪ acc in
             match snd row with
             | Some t => if truthy (Some t) then {[t]} ∪ acc else acc
             | None => acc
             end) relevant_tables rows in
  Some (elements relevant_tables, set_all_tables relevant_tables s).

(** Body of the loop over the foreign-key rows. *)
Definition add_foreign_key (s : mapper) (row : fk_row) : mapper :=
  match fk_source_table row, fk_target_table row with
  | Some source_table, Some target_table =>
    if truthy (Some source_table) && truthy (Some target_table) then
      set_relationships
        (<[source_table := stored (relationships s) source_table
             ++ [AsTuple (target_table, fk_source_column row,
                          fk_target_column row)]]>
           (relationships s))
        (<[target_table := stored (reverse_relationships s) target_table
             ++ [AsTuple (source_table, fk_target_column row,
                          fk_source_column row)]]>
           (reverse_relationships s)) s
    else s
  | _, _ => s
  end.

(** Body of the loop over the column rows. *)
Definition add_column (s : mapper) (row : string * string * string) : mapper :=
  let '(table_name, column_name, data_type) := row in
  set_table_columns
    (<[table_name := default [] (table_columns s !! table_name)
         ++ [Column column_name data_type]]> (table_columns s)) s.

(** The part of [map_focused_relationships] after the cache check: the
    "mapeamento completo". *)
Definition full_mapping (lower : string → string) (now : string) (s : mapper)
    (d : disk) (db : database) : bool * mapper * disk :=
  match get_relevant_tables lower s db with
  | None => (false, s, d)
  | Some (relevant_tables, s) =>
    match relevant_tables with
    | [] => (false, s, d)
    | _ :: _ =>
      match connect s (connect_mapping db) with
      | None => (false, s, d)
      | Some _ =>
        match (if networked s then list_foreign_keys db relevant_tables
               else Some []) with
        | None => (false, s, d)
        | Some fk_rows =>
          let s := foldl add_foreign_key s fk_rows in
          match (if networked s then list_columns db relevant_tables
                 else Some []) with
          | None => (false, s, d)
          | Some column_rows =>
            let s := foldl add_column s column_rows in
            (true, s, _save_mapping_cache now s d)
          end
        end
      end
    end
  end.

(** [map_focused_relationships] (without a progress callback); [false] is
    also what the [except Exception] clause returns. *)
Definition map_focused_relationships (lower : string → string) (now : string)
    (s : mapper) (d : disk) (db : database) : bool * mapper * disk :=
  let '(loaded, s) := _load_from_mapping_cache s in
  if loaded then (true, s, d) else full_mapping lower now s d db.

(** ** Cache maintenance and ancillary queries *)

(** [clear_cache]: the dictionary is emptied and the file removed. *)
Definition clear_cache (s : mapper) (d : disk) : mapper * disk :=
  (set_path_cache ∅ s, Disk None (mapping_cache_file d)).

(** [search_tables] *)
Definition search_tables (lower : string → string) (s : mapper)
    (pattern : string) : list string :=
  let pattern := lower pattern in
  let matching :=
    filter (λ table, contains pattern (lower table) = true)
      (fst <$> map_to_list (table_columns s)) in
  sorted matching.

(** The comprehension of [create_path_diagram] and of the path listing:
    [[p for p in path if not ('-->' in p or '<--' in p)]]. *)
Definition tables_only (p : path) : list string :=
  filter (λ item, ¬ (contains "-->" item = true ∨ contains "<--" item = true)) p.

(** The table names of a path: the elements at even positions. *)
Fixpoint table_nodes (p : path) : list string :=
  match p with
  | [] => []
  | t :: rest =>
    t :: match rest with
         | [] => []
         | _ :: rest' => table_nodes rest'
         end
  end.

(** Adjacency entries of the tables not yet visited: what the loop can still
    put on the queue. *)
Definition pending (visited : gset string) (m : gmap string (list stored_edge))
    : nat :=
  map_fold (λ t es n, if decide (t ∈ visited) then n else (length es + n)%nat) O m.

(** Edges of an adjacency list that lead to [target]. *)
Definition edges_to (target : string) (es : list edge) : list edge :=
  filter (λ e : edge, fst (fst e) = target) es.

(** Number of edges, forward and reverse, from [t] to [target]. *)
Definition target_degree (s : mapper) (target t : string) : nat :=
  (length (edges_to target (adj (relationships s) t))
   + length (edges_to target (adj (reverse_relationships s) t)))%nat.

(** A queue entry as the loop builds it: an odd-length path without a
    repeated table, not through [target], whose tables other than the last
    have all been visited. *)
Definition entry_ok (target : string) (visited : gset string)
    (e : string * path) : Prop :=
  Nat.Odd (length (snd e)) ∧ NoDup (table_nodes (snd e))
  ∧ (target ∉ table_nodes (snd e))
  ∧ ∀ t, t ∈ table_nodes (snd e) → t ∈ visited ∨ t = fst e.

(** Entries of the path cache as [_save_to_cache] writes them after a
    search: stored under the key of their own triple, every path with at
    most [max_depth + 2] elements. *)
Definition cache_depth_ok (pc : gmap string cache_entry) : Prop :=
  ∀ k e, pc !! k = Some e →
    k = _get_cache_key (ce_source e) (ce_target e) (ce_max_depth e)
    ∧ Forall (λ p : path, Z.of_nat (length p) ≤ ce_max_depth e + 2) (ce_paths e).

(** Every cached entry holds at most [n] paths. *)
Definition cache_paths_count (n : nat) (pc : gmap string cache_entry) : Prop :=
  ∀ k e, pc !! k = Some e → (length (ce_paths e) ≤ n)%nat.

(** Every cached path satisfies [P]. *)
Definition cache_paths (P : path → Prop) (pc : gmap string cache_entry) : Prop :=
  ∀ k e, pc !! k = Some e → Forall P (ce_paths e).

(** Whether a string has a colon, and what follows its last colon. *)
Fixpoint has_colon (s : string) : bool :=
  match s with
  | EmptyString => false
  | String c s' => Ascii.eqb c ":" || has_colon s'
  end.

Fixpoint after_last_colon (s : string) : string :=
  match s with
  | EmptyString => EmptyString
  | String c s' =>
    if has_colon s' then after_last_colon s'
    else if Ascii.eqb c ":" then s' else String c s'
  end.

(** Both endpoints are keys of [table_columns]. *)
Definition in_scope (s : mapper) (source target : string) : Prop :=
  is_Some (table_columns s !! source) ∧ is_Some (table_columns s !! target).

(** The list a call of [find_path] returned. *)
Definition returned (r : option (list path * mapper * disk))
    : option (list path) :=
  (λ x, fst (fst x)) <$> r.

(** One hop of the graph: [b] is reached from [a] by a forward edge or by a
    reverse edge, and [l] is the label the loop writes for it. *)
Inductive hop (s : mapper) (a : string) : string → string → Prop :=
  | hop_forward b src_col tgt_col :
      (b, src_col, tgt_col) ∈ adj (relationships s) a →
      hop s a (forward_label src_col tgt_col) b
  | hop_reverse b src_col tgt_col :
      (b, src_col, tgt_col) ∈ adj (reverse_relationships s) a →
      hop s a (reverse_label src_col tgt_col) b.

(** A path that starts at [source], follows hops of the graph and ends at
    the given table. *)
Inductive walk (s : mapper) (source : string) : path → string → Prop :=
  | walk_start : walk s source [source] source
  | walk_hop p a l b :
      walk s source p a → hop s a l b → walk s source (p ++ [l; b]) b.

(** Every foreign key is in both indexes: [(b, sc, tc)] is listed under [a]
    forward exactly when [(a, tc, sc)] is listed under [b] in reverse. *)
Definition mirrored (s : mapper) : Prop :=
  ∀ a b sc tc,
    (b, sc, tc) ∈ adj (relationships s) a
    ↔ (a, tc, sc) ∈ adj (reverse_relationships s) b.

(** A foreign-key row the mapping loop keeps. *)
Definition kept_row (row : fk_row) : bool :=
  truthy (fk_source_table row) && truthy (fk_target_table row).

(** The paths come in order of length. *)
Definition by_length (ps : list path) : Prop :=
  Sorted (λ p q : path, (length p ≤ length q)%nat) ps.

Definition shorter (p q : path) : Prop := (length p ≤ length q)%nat.

(** What one expansion keeps while it runs over the edges of the table it
    dequeued with path [p]: queue and results stay in order of length, none
    is longer than [p] by more than two, and no queued path is shorter
    than [p]. *)
Definition level (p : path) (w : work) : Prop :=
  StronglySorted shorter (snd <$> fst w)
  ∧ StronglySorted shorter (snd w)
  ∧ Forall (λ x : path, (length x ≤ length p + 2)%nat) (snd <$> fst w)
  ∧ Forall (λ x : path, (length x ≤ length p + 2)%nat) (snd w)
  ∧ Forall (λ x : path, (length p ≤ length x)%nat) (snd <$> fst w).

(** The loop state: queue and results in order of length, and nothing in
    either longer by more than two than any queued path. *)
Definition levels (q : list (string * path)) (ps : list path) : Prop :=
  StronglySorted shorter (snd <$> q)
  ∧ StronglySorted shorter ps
  ∧ Forall (λ h : path,
      Forall (λ x : path, (length x ≤ length h + 2)%nat) ((snd <$> q) ++ ps))
      (snd <$> q).

(** Two mappers that differ in the graph at most: same configuration, same
    path cache, same loaded mapping cache. *)
Definition same_session (s s' : mapper) : Prop :=
  db_type s' = db_type s ∧ connection_params s' = connection_params s
  ∧ patterns s' = patterns s ∧ path_cache s' = path_cache s
  ∧ mapping_cache s' = mapping_cache s.

(** The column descriptors of the rows of one table, in row order. *)
Definition columns_of (table : string) (rows : list (string * string * string))
    : list column :=
  (λ row, Column (snd (fst row)) (snd row))
  <$> filter (λ row, fst (fst row) = table) rows.

(** A name with neither arrow in it. *)
Definition arrow_free (t : string) : Prop :=
  contains "-->" t = false ∧ contains "<--" t = false.

(** The compatibility test of [_load_from_mapping_cache]: the requested
    patterns are among the cached ones, and the cached database string is
    the current one. *)
Definition cache_compatible (s : mapper) : Prop :=
  list_to_set (C := gset string) (patterns s)
    ⊆ list_to_set (default [] (mc_patterns (mapping_cache s)))
  ∧ default "" (mc_db_info (mapping_cache s)) = db_info s.

(** ** Example graphs *)

(** A lowering that also knows the accented letters of two names used in
    an example. *)
Definition lower_sample (s : string) : string :=
  if decide (s = "TRANSAÇÃO") then "transação"
  else if decide (s = "AÇÃO") then "ação"
  else ascii_lower s.



Definition id_column : list column := [Column "id" "integer"].

Definition no_files : disk := Disk None None.

(** [orders.user_id -> users.id] and [order_items.order_id -> orders.id]. *)
Definition shop : mapper :=
  Mapper "postgresql" {["database" := "shop"]} ["user"; "order"]
    {["orders" := [AsTuple ("users", "user_id", "id")];
      "order_items" := [AsTuple ("orders", "order_id", "id")]]}
    {["users" := [AsTuple ("orders", "id", "user_id")];
      "orders" := [AsTuple ("order_items", "id", "order_id")]]}
    {["users" := id_column; "orders" := id_column; "order_items" := id_column]}
    {["users"; "orders"; "order_items"]} ∅ mc_empty.

(** A table with eleven foreign keys to one other table. *)
Definition wide : mapper :=
  Mapper "postgresql" {["database" := "wide"]} ["log"]
    {["log" := (λ i : nat, AsTuple ("users", "user" +:+ pretty i, "id"))
               <$> seq 0 11]}
    {["users" := (λ i : nat, AsTuple ("log", "id", "user" +:+ pretty i))
                 <$> seq 0 11]}
    {["log" := id_column; "users" := id_column]}
    {["log"; "users"]} ∅ mc_empty.

(** A database with the tables of [shop], and the same one when its column
    query fails. *)
Definition shop_db : database :=
  Database true (Some ["order_items"; "orders"; "users"])
    (λ _, Some [("orders", Some "users"); ("order_items", Some "orders")])
    true
    (λ _, Some [FkRow (Some "orders") "user_id" (Some "users") "id";
                FkRow (Some "order_items") "order_id" (Some "orders") "id"])
    (λ ts, Some ((λ t, (t, "id", "integer")) <$> ts)).

Definition shop_db_failing : database :=
  Database true (Some ["order_items"; "orders"; "users"; "user_roles"])
    (list_related shop_db) true (list_foreign_keys shop_db) (λ _, None).

Definition unreachable_db : database :=
  Database false None (λ _, None) false (λ _, None) (λ _, None).

(** A new mapper for the shop database. *)
Definition new_shop_mapper (d : disk) : mapper :=
  __init__ ascii_lower "PostgreSQL" {["database" := "shop"]}
    (Some ["user"; "order"]) d.

(** [shop] with one entry in its path cache, whose path is not a path of
    the graph. *)
Definition shop_cached : mapper :=
  set_path_cache
    {[_get_cache_key "users" "orders" 3
      := CacheEntry [["users"; "--old-->id-->"; "orders"]] "t0" "users" "orders" 3]}
    shop.

(** Table names that contain the arrow of the cache key. *)
Definition arrows : mapper :=
  Mapper "postgresql" {["database" := "arrows"]} ["a"]
    {["a→b" := [AsTuple ("c", "c_id", "id")]]}
    {["c" := [AsTuple ("a→b", "id", "c_id")]]}
    {["a→b" := id_column; "c" := id_column; "a" := id_column;
      "b→c" := id_column]}
    {["a→b"; "c"; "a"; "b→c"]} ∅ mc_empty.

(** ** The search loop: termination *)

Lemma pending_insert visited m t es :
  m !! t = None →
  pending visited (<[t := es]> m)
  = ((if decide (t ∈ visited) then O else length es) + pending visited m)%nat.
Proof.
  intros Hm. unfold pending.
  rewrite map_fold_insert_L; [by destruct (decide _)| |done].
  intros j1 j2 z1 z2 y _ _ _.
  destruct (decide (j1 ∈ visited)), (decide (j2 ∈ visited)); lia.
Qed.

Lemma pending_empty m : pending ∅ m = edge_count m.
Proof.
  induction m as [|t es m Hm IH] using map_ind; [done|].
  rewrite pending_insert by done. unfold edge_count.
  rewrite map_fold_insert_L; [|intros; lia|done].
  fold (edge_count m). rewrite decide_False by set_solver. lia.
Qed.

Lemma pending_visit visited m t :
  t ∉ visited →
  (pending ({[t]} ∪ visited) m + length (adj m t))%nat = pending visited m.
Proof.
  intros Ht. unfold adj, stored. rewrite length_fmap.
  induction m as [|k es m Hm IH] using map_ind.
  { by rewrite lookup_empty. }
  rewrite !pending_insert by done.
  destruct (decide (k = t)) as [->|Hne].
  - rewrite lookup_insert_eq. rewrite Hm in IH. simpl in *.
    rewrite decide_True by set_solver. rewrite decide_False by done. lia.
  - rewrite lookup_insert_ne by done.
    destruct (decide (k ∈ visited)).
    + rewrite (decide_True (P := k ∈ {[t]} ∪ visited))
        by (by apply elem_of_union_r).
      lia.
    + rewrite (decide_False (P := k ∈ {[t]} ∪ visited)); [lia|].
      rewrite elem_of_union, elem_of_singleton. tauto.
Qed.

Lemma visit_edges_queue_length label target max_depth visited p edges w :
  (length (fst (visit_edges label target max_depth visited p edges w))
   ≤ length (fst w) + length edges)%nat.
Proof.
  unfold visit_edges. revert w.
  induction edges as [|[[n a] b] edges IH]; intros w; simpl; [lia|].
  etrans; [apply IH|]. unfold visit_edge.
  repeat case_decide; simpl; rewrite ?length_app; simpl; lia.
Qed.

Lemma search_enough_fuel s target max_depth fuel queue visited paths :
  (length queue + pending visited (relationships s)
   + pending visited (reverse_relationships s) ≤ fuel)%nat →
  is_Some (search fuel s target max_depth queue visited paths).
Proof.
  revert queue visited paths.
  induction fuel as [|fuel IH]; intros queue visited paths Hfuel.
  - destruct queue as [|[c p] q]; simpl in *; [eauto|lia].
  - destruct queue as [|[c p] q]; simpl in *; [eauto|].
    destruct (decide _); [|eauto].
    destruct (decide _); [apply IH; lia|].
    destruct (decide _) as [|Hc]; [apply IH; lia|].
    apply IH. unfold expand.
    pose proof (pending_visit visited (relationships s) c Hc) as Hf.
    pose proof (pending_visit visited (reverse_relationships s) c Hc) as Hr.
    pose proof (visit_edges_queue_length reverse_label target max_depth
      ({[c]} ∪ visited) p (adj (reverse_relationships s) c)
      (visit_edges forward_label target max_depth ({[c]} ∪ visited) p
         (adj (relationships s) c) (q, paths))) as Hqr.
    pose proof (visit_edges_queue_length forward_label target max_depth
      ({[c]} ∪ visited) p (adj (relationships s) c) (q, paths)) as Hqf.
    simpl in *. clear -Hfuel Hf Hr Hqr Hqf. lia.
Qed.

(** The bound [find_path] runs the loop with is enough. *)
Lemma search_terminates s source target max_depth :
  is_Some (search (search_fuel s) s target max_depth
             [(source, [source])] ∅ []).
Proof.
  apply search_enough_fuel.
  rewrite (pending_empty (relationships s)).
  rewrite (pending_empty (reverse_relationships s)). unfold search_fuel.
  cbn [length]. lia.
Qed.

(** ** The search loop: invariants *)

Lemma table_nodes_snoc p label t :
  Nat.Odd (length p) → table_nodes (p ++ [label; t]) = table_nodes p ++ [t].
Proof.
  revert p. fix IH 1. intros [|x [|y p]] Hodd.
  - destruct Hodd as [k Hk]. simpl in Hk. lia.
  - done.
  - cbn [table_nodes app]. f_equal. apply IH.
    destruct Hodd as [k Hk]. simpl in Hk. exists (k - 1)%nat. lia.
Qed.

Lemma table_nodes_length p :
  (2 * length (table_nodes p) ≤ length p + 1)%nat.
Proof.
  revert p. fix IH 1. intros [|x [|y p]]; simpl; [lia..|].
  specialize (IH p). lia.
Qed.

Section search.
Context (s : mapper) (target : string) (max_depth : Z).

(** A property of the queue and the result list that every edge visit
    keeps is kept by a whole [for] loop. *)
Lemma visit_edges_keeps (J : work → Prop) label visited p edges w :
  (∀ w e, e ∈ edges → J w → J (visit_edge label target max_depth visited p w e)) →
  J w → J (visit_edges label target max_depth visited p edges w).
Proof.
  unfold visit_edges. revert w.
  induction edges as [|e edges IH]; intros w Hstep Hw; simpl; [done|].
  apply IH.
  - intros w' e' He'. apply Hstep. by right.
  - apply Hstep; [by left|done].
Qed.

(** A property of the loop state that skipping an entry and expanding an
    entry keep holds of the state the loop ends in. *)
Lemma search_keeps (I : list (string * path) → gset string → list path → Prop) :
  (∀ c p q v ps, I ((c, p) :: q) v ps → I q v ps) →
  (∀ c p q v ps,
     I ((c, p) :: q) v ps → (length ps < 10)%nat →
     ¬ max_depth < Z.of_nat (length p) → c ∉ v →
     I (fst (expand s target max_depth ({[c]} ∪ v) c p (q, ps)))
       ({[c]} ∪ v)
       (snd (expand s target max_depth ({[c]} ∪ v) c p (q, ps)))) →
  ∀ fuel q v ps r,
    I q v ps → search fuel s target max_depth q v ps = Some r →
    ∃ q' v', I q' v' r.
Proof.
  intros Hskip Hexpand fuel.
  induction fuel as [|fuel IH]; intros q v ps r HI Hr.
  - destruct q as [|[c p] q]; simpl in Hr.
    + injection Hr as <-. eauto.
    + destruct (decide _); [done|]. injection Hr as <-. eauto.
  - destruct q as [|[c p] q]; simpl in Hr.
    { injection Hr as <-. eauto. }
    destruct (decide _) as [Hlen|]; [|injection Hr as <-; eauto].
    destruct (decide _) as [|Hdepth].
    { eapply IH; [eapply Hskip; exact HI|exact Hr]. }
    destruct (decide _) as [|Hc].
    { eapply IH; [eapply Hskip; exact HI|exact Hr]. }
    eapply IH; [|exact Hr]. by apply Hexpand.
Qed.
End search.

Section search_properties.
Context (s : mapper) (target : string) (max_depth : Z).

(** Completed paths are at most two elements longer than the bound. *)
Lemma search_path_length fuel q v ps r :
  Forall (λ p : path, Z.of_nat (length p) ≤ max_depth + 2) ps →
  search fuel s target max_depth q v ps = Some r →
  Forall (λ p : path, Z.of_nat (length p) ≤ max_depth + 2) r.
Proof.
  intros Hps Hr.
  destruct (search_keeps s target max_depth
    (λ _ _ ps, Forall (λ p : path, Z.of_nat (length p) ≤ max_depth + 2) ps))
    with (fuel := fuel) (q := q) (v := v) (ps := ps) (r := r)
    as (_ & _ & H); try done.
  intros c p q0 v0 ps0 Hps0 _ Hdepth _. unfold expand.
  do 2 (apply (visit_edges_keeps target max_depth
          (λ w, Forall (λ p : path, Z.of_nat (length p) ≤ max_depth + 2) (snd w)));
        [intros w [[n a] b] _ Hw; unfold visit_edge;
         repeat case_decide; simpl; try done;
         apply Forall_app; split; [done|];
         apply Forall_singleton; rewrite length_app; simpl; lia|]).
  done.
Qed.

(** A [for] loop adds one completed path per edge that leads to the
    target. *)
Lemma visit_edges_paths_length label visited p edges w :
  length (snd (visit_edges label target max_depth visited p edges w))
  = (length (snd w) + length (edges_to target edges))%nat.
Proof.
  unfold visit_edges, edges_to. revert w.
  induction edges as [|[[n a] b] edges IH]; intros w; simpl; [lia|].
  rewrite IH. unfold visit_edge. rewrite filter_cons. simpl.
  destruct (decide (n = target)); simpl.
  - rewrite length_app. simpl. lia.
  - by destruct (decide _).
Qed.

(** The cap is tested between expansions: the result exceeds nine paths
    by at most the completed paths of one expansion. *)
Lemma search_result_count k fuel q v ps r :
  (∀ t, target_degree s target t ≤ k)%nat →
  (length ps ≤ 9 + k)%nat →
  search fuel s target max_depth q v ps = Some r →
  (length r ≤ 9 + k)%nat.
Proof.
  intros Hk Hps Hr.
  destruct (search_keeps s target max_depth
    (λ _ _ ps, (length ps ≤ 9 + k)%nat))
    with (fuel := fuel) (q := q) (v := v) (ps := ps) (r := r)
    as (_ & _ & H); try done.
  intros c p q0 v0 ps0 _ Hlen _ _. unfold expand.
  rewrite !visit_edges_paths_length. simpl.
  specialize (Hk c). unfold target_degree in Hk. lia.
Qed.

Lemma entry_ok_mono v v' e :
  v ⊆ v' → entry_ok target v e → entry_ok target v' e.
Proof.
  intros Hv (Hodd & Hnd & Ht & Hin). repeat split; try done.
  intros t Hte. destruct (Hin t Hte); [left; by apply Hv|by right].
Qed.

Lemma visit_edge_no_repeat label visited p w e :
  Nat.Odd (length p) → NoDup (table_nodes p) → target ∉ table_nodes p →
  (∀ t, t ∈ table_nodes p → t ∈ visited) →
  Forall (entry_ok target visited) (fst w)
  ∧ Forall (λ p : path, NoDup (table_nodes p)) (snd w) →
  Forall (entry_ok target visited)
    (fst (visit_edge label target max_depth visited p w e))
  ∧ Forall (λ p : path, NoDup (table_nodes p))
      (snd (visit_edge label target max_depth visited p w e)).
Proof.
  intros Hodd Hnd Ht Hin [Hw1 Hw2]. destruct e as [[n a] b].
  unfold visit_edge.
  destruct (decide (n = target)) as [->|Hn]; simpl.
  - split; [done|]. apply Forall_app. split; [done|].
    apply Forall_singleton. rewrite table_nodes_snoc by done.
    apply NoDup_app. split_and!; [done| |apply NoDup_singleton].
    intros t Htp ->%list_elem_of_singleton. done.
  - destruct (decide _) as [[Hv _]|]; simpl; [|done].
    split; [|done]. apply Forall_app. split; [done|].
    apply Forall_singleton. unfold entry_ok. simpl.
    rewrite table_nodes_snoc by done. split_and!.
    + destruct Hodd as [k Hk]. exists (S k). rewrite length_app. simpl. lia.
    + apply NoDup_app. split_and!; [done| |apply NoDup_singleton].
      intros t Htp ->%list_elem_of_singleton. by apply Hv, Hin.
    + rewrite elem_of_app, list_elem_of_singleton. intros [?|?]; congruence.
    + intros t [Htp| ->%list_elem_of_singleton]%elem_of_app; [|by right].
      left. by apply Hin.
Qed.

(** No completed path goes through a table twice. *)
Lemma search_no_repeat fuel q v ps r :
  Forall (entry_ok target v) q →
  Forall (λ p : path, NoDup (table_nodes p)) ps →
  search fuel s target max_depth q v ps = Some r →
  Forall (λ p : path, NoDup (table_nodes p)) r.
Proof.
  intros Hq Hps Hr.
  destruct (search_keeps s target max_depth
    (λ q v ps, Forall (entry_ok target v) q
               ∧ Forall (λ p : path, NoDup (table_nodes p)) ps))
    with (fuel := fuel) (q := q) (v := v) (ps := ps) (r := r)
    as (_ & _ & _ & H); try done.
  { intros c p q0 v0 ps0 [Hq0 Hps0]. split; [|done].
    by apply Forall_cons_1 in Hq0 as [_ ?]. }
  intros c p q0 v0 ps0 [Hq0 Hps0] _ _ Hc.
  apply Forall_cons_1 in Hq0 as [(Hodd & Hnd & Ht & Hin) Hq0]. simpl in *.
  assert (∀ t, t ∈ table_nodes p → t ∈ {[c]} ∪ v0) as Hin'.
  { intros t Htp. destruct (Hin t Htp) as [?| ->];
      rewrite elem_of_union, elem_of_singleton; tauto. }
  unfold expand.
  apply (visit_edges_keeps target max_depth
           (λ w, Forall (entry_ok target ({[c]} ∪ v0)) (fst w)
                 ∧ Forall (λ p : path, NoDup (table_nodes p)) (snd w))).
  { intros w e _. by apply visit_edge_no_repeat. }
  apply (visit_edges_keeps target max_depth
           (λ w, Forall (entry_ok target ({[c]} ∪ v0)) (fst w)
                 ∧ Forall (λ p : path, NoDup (table_nodes p)) (snd w))).
  { intros w e _. by apply visit_edge_no_repeat. }
  simpl. split; [|done].
  eapply Forall_impl; [exact Hq0|].
  intros e. apply entry_ok_mono. set_solver.
Qed.
End search_properties.

(** ** The cache key *)

Lemma has_colon_app x y : has_colon (x +:+ y) = has_colon x || has_colon y.
Proof.
  induction x as [|c x IH]; simpl; [done|].
  rewrite IH. by rewrite orb_assoc.
Qed.

Lemma after_last_colon_app x y :
  has_colon y = true → after_last_colon (x +:+ y) = after_last_colon y.
Proof.
  intros Hy. induction x as [|c x IH]; simpl; [done|].
  rewrite has_colon_app, Hy, orb_true_r. done.
Qed.

Lemma after_last_colon_key source target max_depth :
  has_colon (pretty max_depth) = false →
  after_last_colon (_get_cache_key source target max_depth) = pretty max_depth.
Proof.
  intros Hd. unfold _get_cache_key.
  rewrite after_last_colon_app by (by rewrite !has_colon_app; simpl; rewrite !orb_true_r).
  rewrite after_last_colon_app by (by rewrite !has_colon_app; simpl; rewrite !orb_true_r).
  rewrite after_last_colon_app by done.
  change (":" +:+ pretty max_depth) with (String ":" (pretty max_depth)).
  simpl. by rewrite Hd.
Qed.

Lemma pretty_N_go_colon_free x acc :
  has_colon acc = false → has_colon (pretty_N_go x acc) = false.
Proof.
  revert acc. induction (N.lt_wf_0 x) as [x _ IH]; intros acc Hacc.
  destruct (decide (x = 0)%N) as [->|Hx]; [by rewrite pretty_N_go_0|].
  rewrite pretty_N_go_step by lia.
  apply IH; [apply N.div_lt; lia|].
  simpl. rewrite Hacc, orb_false_r.
  unfold pretty_N_char. by repeat case_match.
Qed.

Lemma pretty_Z_colon_free (z : Z) : has_colon (pretty z) = false.
Proof.
  assert (∀ p : positive, has_colon (pretty p) = false) as Hpos.
  { intros p. unfold pretty, pretty_positive, pretty, pretty_N.
    case_decide; [done|]. by apply pretty_N_go_colon_free. }
  destruct z as [|p|p]; [done|apply Hpos|].
  unfold pretty, pretty_Z. rewrite has_colon_app, Hpos. done.
Qed.

(** The depth can be read back from a key: two triples with the same key
    have the same depth. *)
Lemma _get_cache_key_depth source target max_depth source' target' max_depth' :
  _get_cache_key source target max_depth
  = _get_cache_key source' target' max_depth' →
  max_depth = max_depth'.
Proof.
  intros Hk. apply (f_equal after_last_colon) in Hk.
  rewrite !after_last_colon_key in Hk by apply pretty_Z_colon_free.
  by apply (inj pretty).
Qed.

(** ** [find_path] *)

(** The three ways [find_path] returns, besides the out-of-scope one. *)
Lemma find_path_same now s d t max_depth :
  is_Some (table_columns s !! t) →
  find_path now s d t t max_depth = Some ([[t]], s, d).
Proof.
  intros [cols Ht]. unfold find_path.
  rewrite decide_False by (rewrite Ht; intros [|]; done).
  by rewrite decide_True.
Qed.

Lemma find_path_hit now s d source target max_depth e :
  is_Some (table_columns s !! source) → is_Some (table_columns s !! target) →
  source ≠ target →
  _get_from_cache s source target max_depth = Some e →
  find_path now s d source target max_depth = Some (ce_paths e, s, d).
Proof.
  intros [? Hs] [? Ht] Hne He. unfold find_path.
  rewrite decide_False by (rewrite Hs, Ht; intros [|]; done).
  rewrite decide_False by done. by rewrite He.
Qed.

Lemma find_path_miss now s d source target max_depth :
  is_Some (table_columns s !! source) → is_Some (table_columns s !! target) →
  source ≠ target →
  _get_from_cache s source target max_depth = None →
  ∃ ps,
    search (search_fuel s) s target max_depth [(source, [source])] ∅ [] = Some ps
    ∧ find_path now s d source target max_depth
      = Some (ps,
              set_path_cache
                (<[_get_cache_key source target max_depth
                   := CacheEntry ps now source target max_depth]> (path_cache s)) s,
              Disk (Some (<[_get_cache_key source target max_depth
                   := CacheEntry ps now source target max_depth]> (path_cache s)))
                   (mapping_cache_file d)).
Proof.
  intros [? Hs] [? Ht] Hne He.
  destruct (search_terminates s source target max_depth) as [ps Hps].
  exists ps. split; [done|]. unfold find_path.
  rewrite decide_False by (rewrite Hs, Ht; intros [|]; done).
  rewrite decide_False by done. rewrite He, Hps. done.
Qed.

(** The shape of every call: which of the four ways was taken. *)
Lemma find_path_cases now s d source target max_depth :
  (find_path now s d source target max_depth = Some ([], s, d)
   ∧ (table_columns s !! source = None ∨ table_columns s !! target = None))
  ∨ (find_path now s d source target max_depth = Some ([[source]], s, d)
     ∧ source = target ∧ is_Some (table_columns s !! source))
  ∨ (∃ e, find_path now s d source target max_depth = Some (ce_paths e, s, d)
       ∧ in_scope s source target ∧ source ≠ target
       ∧ path_cache s !! _get_cache_key source target max_depth = Some e)
  ∨ (∃ ps,
       search (search_fuel s) s target max_depth [(source, [source])] ∅ []
       = Some ps
       ∧ in_scope s source target ∧ source ≠ target
       ∧ find_path now s d source target max_depth
         = Some (ps,
              set_path_cache
                (<[_get_cache_key source target max_depth
                   := CacheEntry ps now source target max_depth]> (path_cache s)) s,
              Disk (Some (<[_get_cache_key source target max_depth
                   := CacheEntry ps now source target max_depth]> (path_cache s)))
                   (mapping_cache_file d))).
Proof.
  destruct (table_columns s !! source) as [cs|] eqn:Hs; cycle 1.
  { left. split; [|by left]. unfold find_path. rewrite decide_True; [done|].
    by left. }
  destruct (table_columns s !! target) as [ct|] eqn:Ht; cycle 1.
  { left. split; [|by right]. unfold find_path. rewrite decide_True; [done|].
    by right. }
  right. destruct (decide (source = target)) as [->|Hne].
  { left. split; [|by eauto]. apply find_path_same. by eauto. }
  right. destruct (_get_from_cache s source target max_depth) as [e|] eqn:He.
  - left. exists e. split_and!; [|by split; eauto|done..].
    apply find_path_hit; eauto.
  - right. destruct (find_path_miss now s d source target max_depth)
      as (ps & Hps & Hfp); eauto.
    exists ps. split_and!; [done|by split; eauto|done..].
Qed.

(** [find_path] always returns. *)
Lemma find_path_total now s d source target max_depth :
  is_Some (find_path now s d source target max_depth).
Proof.
  destruct (find_path_cases now s d source target max_depth)
    as [[-> _]|[[-> _]|[(e & -> & _)|(ps & _ & _ & _ & ->)]]]; eauto.
Qed.

(** C1, as amended.  For a depth of at least 2 and a path cache holding only
    entries as [find_path] writes them, [find_path] returns, and every path it
    returns has at most [max_depth + 2] elements, hence at most [max_depth]
    table names; the cache keeps that form.  The loop compares the number of
    elements of a path, labels included, with the depth. *)
Theorem find_path_depth_bound now s d source target max_depth :
  2 ≤ max_depth →
  cache_depth_ok (path_cache s) →
  ∃ ps s' d',
    find_path now s d source target max_depth = Some (ps, s', d')
    ∧ Forall (λ p : path, Z.of_nat (length p) ≤ max_depth + 2) ps
    ∧ Forall (λ p : path, Z.of_nat (length (table_nodes p)) ≤ max_depth) ps
    ∧ cache_depth_ok (path_cache s').
Proof.
  intros Hd Hpc.
  assert (∀ ps : list path,
    Forall (λ p : path, Z.of_nat (length p) ≤ max_depth + 2) ps →
    Forall (λ p : path, Z.of_nat (length (table_nodes p)) ≤ max_depth) ps)
    as Hnodes.
  { intros ps Hps. eapply Forall_impl; [exact Hps|]. intros p Hp. simpl in *.
    pose proof (table_nodes_length p). lia. }
  destruct (find_path_cases now s d source target max_depth)
    as [[-> _]|[[-> _]|[(e & -> & _ & _ & He)|(ps & Hps & _ & _ & ->)]]].
  - exists [], s, d. split_and!; done.
  - exists [[source]], s, d.
    assert (Forall (λ p : path, Z.of_nat (length p) ≤ max_depth + 2) [[source]]).
    { apply Forall_singleton. simpl. lia. }
    split_and!; auto.
  - exists (ce_paths e), s, d. destruct (Hpc _ _ He) as [Hk Hpaths].
    apply _get_cache_key_depth in Hk. rewrite <-Hk in Hpaths.
    split_and!; auto.
  - eexists ps, _, _. split; [done|].
    assert (Forall (λ p : path, Z.of_nat (length p) ≤ max_depth + 2) ps).
    { by eapply search_path_length. }
    split_and!; auto.
    intros k e. simpl. rewrite lookup_insert.
    case_decide as Hk; [|apply Hpc]. intros [= <-]. by simpl.
Qed.

Lemma find_path_depth_bound_witness :
  ∃ ps s' d',
    find_path "t1" shop no_files "users" "order_items" 4 = Some (ps, s', d')
    ∧ Forall (λ p : path, Z.of_nat (length p) ≤ 4 + 2) ps
    ∧ Forall (λ p : path, Z.of_nat (length (table_nodes p)) ≤ 4) ps
    ∧ cache_depth_ok (path_cache s').
Proof.
  apply (find_path_depth_bound "t1" shop no_files "users" "order_items" 4).
  - lia.
  - intros k e. simpl. by rewrite lookup_empty.
Defined.

(** C1 fails at depth 1: a direct foreign key gives a path of two tables. *)
Lemma find_path_depth_one_two_tables :
  returned (find_path "t1" shop no_files "users" "orders" 1)
  = Some [["users"; "<--user_id<--id--"; "orders"]]
  ∧ is_Some (table_columns shop !! "users")
  ∧ is_Some (table_columns shop !! "orders")
  ∧ 1 < Z.of_nat (length (table_nodes ["users"; "<--user_id<--id--"; "orders"])).
Proof.
  split_and!; [by vm_compute|vm_compute; eauto..|simpl; lia].
Qed.

(** C2, as amended.  The loop tests [len(paths) < 10] between expansions
    only.  When no table has more than [k] edges, forward and reverse, to the
    target and the cached entries hold at most [9 + k] paths, [find_path]
    returns at most [9 + k] paths, and the cached entries still hold at most
    [9 + k]. *)
Theorem find_path_result_count k now s d source target max_depth :
  (∀ t, target_degree s target t ≤ k)%nat →
  cache_paths_count (9 + k) (path_cache s) →
  ∃ ps s' d',
    find_path now s d source target max_depth = Some (ps, s', d')
    ∧ (length ps ≤ 9 + k)%nat
    ∧ cache_paths_count (9 + k) (path_cache s').
Proof.
  intros Hk Hpc.
  destruct (find_path_cases now s d source target max_depth)
    as [[-> _]|[[-> _]|[(e & -> & _ & _ & He)|(ps & Hps & _ & _ & ->)]]].
  - exists [], s, d. split_and!; [done|simpl; lia|done].
  - exists [[source]], s, d. split_and!; [done|simpl; lia|done].
  - exists (ce_paths e), s, d. split_and!; [done|by eapply Hpc|done].
  - eexists ps, _, _. split; [done|].
    assert (length ps ≤ 9 + k)%nat.
    { eapply search_result_count; [exact Hk| |exact Hps]. simpl. lia. }
    split; [done|].
    intros key e. simpl. rewrite lookup_insert.
    case_decide; [|apply Hpc]. intros [= <-]. by simpl.
Qed.

Lemma shop_target_degree t : (target_degree shop "order_items" t ≤ 1)%nat.
Proof.
  unfold target_degree, adj, stored.
  destruct (decide (t = "orders")) as [->|?]; [by vm_compute|].
  destruct (decide (t = "users")) as [->|?]; [vm_compute; lia|].
  destruct (decide (t = "order_items")) as [->|?]; [vm_compute; lia|].
  assert (relationships shop !! t = None) as ->.
  { unfold shop; simpl. rewrite lookup_insert_ne by done.
    by rewrite lookup_singleton_ne. }
  assert (reverse_relationships shop !! t = None) as ->.
  { unfold shop; simpl. rewrite lookup_insert_ne by done.
    by rewrite lookup_singleton_ne. }
  simpl. lia.
Qed.

Lemma find_path_result_count_witness :
  ∃ ps s' d',
    find_path "t1" shop no_files "users" "order_items" 5 = Some (ps, s', d')
    ∧ (length ps ≤ 9 + 1)%nat
    ∧ cache_paths_count (9 + 1) (path_cache s').
Proof.
  apply (find_path_result_count 1 "t1" shop no_files "users" "order_items" 5).
  - apply shop_target_degree.
  - intros k e. simpl. by rewrite lookup_empty.
Defined.

(** C2 fails when one table has eleven foreign keys to the target: all
    eleven paths are appended by the first expansion. *)
Lemma find_path_eleven_paths :
  length <$> returned (find_path "t1" wide no_files "log" "users" 5)
  = Some 11%nat.
Proof. by vm_compute. Qed.

(** C7.  When no cached path repeats a table, [find_path] returns, no path
    it returns has a table name twice, and no cached path repeats a table
    afterwards. *)
Theorem find_path_no_repeated_table now s d source target max_depth :
  cache_paths (λ p, NoDup (table_nodes p)) (path_cache s) →
  ∃ ps s' d',
    find_path now s d source target max_depth = Some (ps, s', d')
    ∧ Forall (λ p : path, NoDup (table_nodes p)) ps
    ∧ cache_paths (λ p, NoDup (table_nodes p)) (path_cache s').
Proof.
  intros Hpc.
  destruct (find_path_cases now s d source target max_depth)
    as [[-> _]|[[-> _]|[(e & -> & _ & _ & He)|(ps & Hps & _ & Hne & ->)]]].
  - exists [], s, d. split_and!; done.
  - exists [[source]], s, d. split_and!; [done| |done].
    apply Forall_singleton. simpl. apply NoDup_singleton.
  - exists (ce_paths e), s, d. split_and!; [done|by eapply Hpc|done].
  - eexists ps, _, _. split; [done|].
    assert (Forall (λ p : path, NoDup (table_nodes p)) ps).
    { eapply search_no_repeat; [|by apply Forall_nil|exact Hps].
      apply Forall_singleton. unfold entry_ok. simpl. split_and!.
      - by exists O.
      - apply NoDup_singleton.
      - rewrite list_elem_of_singleton. congruence.
      - intros t ->%list_elem_of_singleton. by right. }
    split; [done|].
    intros key e. simpl. rewrite lookup_insert.
    case_decide; [|apply Hpc]. intros [= <-]. by simpl.
Qed.

Lemma find_path_no_repeated_table_witness :
  ∃ ps s' d',
    find_path "t1" shop no_files "users" "order_items" 5 = Some (ps, s', d')
    ∧ Forall (λ p : path, NoDup (table_nodes p)) ps
    ∧ cache_paths (λ p, NoDup (table_nodes p)) (path_cache s').
Proof.
  apply (find_path_no_repeated_table "t1" shop no_files "users" "order_items" 5).
  intros k e. simpl. by rewrite lookup_empty.
Defined.

(** A table can still occur in several of the returned paths. *)
Lemma table_in_several_paths :
  ∃ p1 p2 rest,
    returned (find_path "t1" wide no_files "log" "users" 5)
    = Some (p1 :: p2 :: rest)
    ∧ p1 ≠ p2 ∧ "log" ∈ table_nodes p1 ∧ "log" ∈ table_nodes p2.
Proof.
  eexists ["log"; "--user0-->id-->"; "users"],
    ["log"; "--user1-->id-->"; "users"], _.
  split_and!; [by vm_compute|done|simpl; by left..].
Qed.

(** C8.  When the source or the target is not a key of [table_columns],
    [find_path] returns the empty list, and changes nothing. *)
Theorem find_path_out_of_scope now s d source target max_depth :
  table_columns s !! source = None ∨ table_columns s !! target = None →
  find_path now s d source target max_depth = Some ([], s, d).
Proof. intros H. unfold find_path. by rewrite decide_True. Qed.

Lemma find_path_out_of_scope_witness :
  find_path "t1" shop no_files "customers" "invoices" 5
  = Some ([], shop, no_files).
Proof.
  apply (find_path_out_of_scope "t1" shop no_files "customers" "invoices" 5).
  left. reflexivity.
Defined.

(** C9.  [find_path] returns, and the mapper it leaves differs from the one
    it was called on in [path_cache] at most: [table_columns],
    [relationships], [reverse_relationships] and [all_tables] are the same
    maps and set, with no key added. *)
Theorem find_path_frame now s d source target max_depth :
  ∃ ps s' d',
    find_path now s d source target max_depth = Some (ps, s', d')
    ∧ table_columns s' = table_columns s
    ∧ relationships s' = relationships s
    ∧ reverse_relationships s' = reverse_relationships s
    ∧ all_tables s' = all_tables s
    ∧ s' = set_path_cache (path_cache s') s.
Proof.
  destruct (find_path_cases now s d source target max_depth)
    as [[-> _]|[[-> _]|[(e & -> & _ & _ & He)|(ps & Hps & _ & Hne & ->)]]];
    eexists _, _, _; (split; [done|]); split_and!; try done;
    by destruct s.
Qed.

(** C3, as amended.  [find_path] returns, and a second call with the same
    arguments returns the same list without searching and without saving,
    whatever has been done to [relationships], [reverse_relationships] and
    [all_tables] in between, as long as the path cache is the one the first
    call left and the source and the target are in [table_columns] exactly
    when they were: the scope test comes before the cache lookup. *)
Theorem find_path_twice now now' s d source target max_depth :
  ∃ ps s1 d1,
    find_path now s d source target max_depth = Some (ps, s1, d1)
    ∧ ∀ s2,
        path_cache s2 = path_cache s1 →
        (is_Some (table_columns s2 !! source)
         ↔ is_Some (table_columns s !! source)) →
        (is_Some (table_columns s2 !! target)
         ↔ is_Some (table_columns s !! target)) →
        find_path now' s2 d1 source target max_depth = Some (ps, s2, d1).
Proof.
  destruct (find_path_cases now s d source target max_depth)
    as [[-> Hout]|[[-> [<- Hin]]
       |[(e & -> & [Hsrc Htgt] & Hne & He)
        |(ps & Hps & [Hsrc Htgt] & Hne & ->)]]];
    eexists _, _, _; (split; [done|]); intros s2 Hpc Hs Ht.
  - unfold find_path. rewrite decide_True; [done|].
    rewrite !eq_None_not_Some in *. tauto.
  - apply find_path_same. tauto.
  - apply (find_path_hit now' s2 d source target max_depth e); [tauto..|done|].
    unfold _get_from_cache. by rewrite Hpc.
  - simpl in Hpc.
    apply (find_path_hit now' s2 _ source target max_depth
             (CacheEntry ps now source target max_depth)); [tauto..|done|].
    unfold _get_from_cache. rewrite Hpc. apply lookup_insert_eq.
Qed.

(** The second call is unchanged by emptying both adjacency maps. *)
Lemma find_path_twice_graph_emptied :
  match find_path "t1" shop no_files "users" "order_items" 5 with
  | Some (ps, s1, d1) =>
    ps = [["users"; "<--user_id<--id--"; "orders"; "<--order_id<--id--";
           "order_items"]]
    ∧ returned (find_path "t2" (set_relationships ∅ ∅ s1) d1
                  "users" "order_items" 5) = Some ps
  | None => False
  end.
Proof. vm_compute. by split. Qed.

(** C3 fails when the change between the calls takes the source out of
    [table_columns]: the second call returns the empty list. *)
Lemma find_path_twice_scope_removed :
  match find_path "t1" shop no_files "users" "orders" 5 with
  | Some (ps, s1, d1) =>
    ps = [["users"; "<--user_id<--id--"; "orders"]]
    ∧ returned (find_path "t2" (set_table_columns ∅ s1) d1
                  "users" "orders" 5) = Some []
  | None => False
  end.
Proof. vm_compute. by split. Qed.

(** C10.  Two different queries have the same cache key, and the second is
    answered with the list cached for the first, where a search of its own
    finds nothing. *)
Theorem cache_key_collision :
  ("a→b", "c") ≠ ("a", "b→c")
  ∧ _get_cache_key "a→b" "c" 1 = _get_cache_key "a" "b→c" 1
  ∧ match find_path "t1" arrows no_files "a→b" "c" 1 with
    | Some (ps, s1, d1) =>
      ps = [["a→b"; "--c_id-->id-->"; "c"]]
      ∧ returned (find_path "t2" s1 d1 "a" "b→c" 1) = Some ps
      ∧ returned (find_path "t2" arrows no_files "a" "b→c" 1) = Some []
    | None => False
    end.
Proof. split_and!; [done|by vm_compute|]. vm_compute. by split_and!. Qed.

(** ** The mapping cache *)

Lemma db_info_nonempty s : db_info s ≠ "".
Proof. unfold db_info. by destruct (db_type s). Qed.

Lemma mc_truthy_false c :
  mc_truthy c = false → mc_patterns c = None ∧ mc_db_info c = None.
Proof.
  unfold mc_truthy. destruct c as [[?|] [?|] ? ? ? ? ? ? ?]; simpl; try done.
Qed.

Lemma _load_from_mapping_cache_false s :
  fst (_load_from_mapping_cache s) = false →
  snd (_load_from_mapping_cache s) = s.
Proof.
  unfold _load_from_mapping_cache.
  destruct (negb _); [done|]. by destruct (decide _).
Qed.

Lemma list_to_set_sorted (l : list string) :
  list_to_set (C := gset string) (sorted l) = list_to_set l.
Proof.
  apply set_eq. intros x. rewrite !elem_of_list_to_set. unfold sorted.
  by rewrite merge_sort_Permutation.
Qed.

Lemma rebuild_id (m : gmap string (list stored_edge)) : rebuild m = m.
Proof.
  unfold rebuild. apply (map_fold_weak_ind (λ r m, r = m)); [done|].
  by intros t es m' r _ ->.
Qed.

Lemma rebuild_copy (m : gmap string (list stored_edge)) :
  rebuild ((λ v : list stored_edge, v) <$> m) = m.
Proof. by rewrite (map_fmap_id m), rebuild_id. Qed.

Lemma adj_as_json m t : adj (as_json_edges m) t = adj m t.
Proof.
  unfold adj, stored, as_json_edges. rewrite lookup_fmap.
  destruct (m !! t) as [es|]; simpl; [|done].
  rewrite <-list_fmap_compose. by apply list_fmap_ext.
Qed.

Lemma adj_append (m : gmap string (list stored_edge)) k x a :
  adj (<[k := stored m k ++ [x]]> m) a
  = if decide (k = a) then adj m a ++ [unpack x] else adj m a.
Proof.
  unfold adj, stored. rewrite lookup_insert.
  destruct (decide (k = a)) as [->|?]; [|done].
  simpl. by rewrite fmap_app.
Qed.

Lemma add_foreign_key_frame s row :
  table_columns (add_foreign_key s row) = table_columns s
  ∧ all_tables (add_foreign_key s row) = all_tables s
  ∧ (∀ t, adj (relationships s) t
          `prefix_of` adj (relationships (add_foreign_key s row)) t)
  ∧ (∀ t, adj (reverse_relationships s) t
          `prefix_of` adj (reverse_relationships (add_foreign_key s row)) t).
Proof.
  unfold add_foreign_key.
  destruct (fk_source_table row) as [src|], (fk_target_table row) as [tgt|];
    try done.
  destruct (_ && _); [|done]. simpl. split_and!; try done.
  - intros t. rewrite adj_append.
    case_decide as Ht; [by apply prefix_app_r|done].
  - intros t. rewrite adj_append.
    case_decide as Ht; [by apply prefix_app_r|done].
Qed.

Lemma foldl_add_foreign_key_frame rows s :
  table_columns (foldl add_foreign_key s rows) = table_columns s
  ∧ all_tables (foldl add_foreign_key s rows) = all_tables s
  ∧ (∀ t, adj (relationships s) t
          `prefix_of` adj (relationships (foldl add_foreign_key s rows)) t)
  ∧ (∀ t, adj (reverse_relationships s) t
          `prefix_of` adj (reverse_relationships (foldl add_foreign_key s rows)) t).
Proof.
  revert s. induction rows as [|row rows IH]; intros s; simpl; [done|].
  destruct (IH (add_foreign_key s row)) as (-> & -> & Hf & Hr).
  destruct (add_foreign_key_frame s row) as (-> & -> & Hf' & Hr').
  split_and!; try done; intros t; etrans; eauto.
Qed.

Lemma get_relevant_tables_frame lower s db ts s' :
  get_relevant_tables lower s db = Some (ts, s') →
  ∃ all, s' = set_all_tables all s.
Proof.
  unfold get_relevant_tables. intros H.
  destruct (connect s _); [|done]. simpl in H.
  destruct (list_tables db); [|done]. simpl in H.
  destruct (if networked s then _ else _); [|done]. simpl in H.
  injection H as _ <-. eauto.
Qed.

Lemma get_relevant_tables_all_tables lower s db ts s' :
  get_relevant_tables lower s db = Some (ts, s') →
  s' = set_all_tables (list_to_set ts) s.
Proof.
  unfold get_relevant_tables. intros H.
  destruct (connect s _); [|done]. simpl in H.
  destruct (list_tables db); [|done]. simpl in H.
  destruct (if networked s then _ else _); [|done]. simpl in H.
  injection H as <- <-. f_equal. apply set_eq. intros t.
  by rewrite elem_of_list_to_set, elem_of_elements.
Qed.

Lemma same_session_refl s : same_session s s.
Proof. by unfold same_session. Qed.

Lemma same_session_trans s1 s2 s3 :
  same_session s1 s2 → same_session s2 s3 → same_session s1 s3.
Proof. unfold same_session. intros (?&?&?&?&?) (?&?&?&?&?). split_and!; congruence. Qed.

Lemma foldl_add_foreign_key_session rows s :
  same_session s (foldl add_foreign_key s rows).
Proof.
  revert s. induction rows as [|row rows IH]; intros s; simpl.
  { apply same_session_refl. }
  eapply same_session_trans; [|apply IH].
  unfold add_foreign_key.
  destruct (fk_source_table row), (fk_target_table row);
    try apply same_session_refl.
  destruct (_ && _); by unfold same_session.
Qed.

Lemma foldl_add_column_session rows s :
  same_session s (foldl add_column s rows)
  ∧ relationships (foldl add_column s rows) = relationships s
  ∧ reverse_relationships (foldl add_column s rows) = reverse_relationships s
  ∧ all_tables (foldl add_column s rows) = all_tables s.
Proof.
  revert s. induction rows as [|[[t c] ty] rows IH]; intros s; cbn [foldl].
  { split; [apply same_session_refl|done]. }
  destruct (IH (add_column s (t, c, ty))) as (Hs & -> & -> & ->).
  split; [|done]. eapply same_session_trans; [|exact Hs].
  by unfold same_session.
Qed.

Lemma full_mapping_session lower now s d db :
  same_session s (snd (fst (full_mapping lower now s d db)))
  ∧ path_cache_file (snd (full_mapping lower now s d db)) = path_cache_file d.
Proof.
  unfold full_mapping.
  destruct (get_relevant_tables lower s db) as [[ts s1]|] eqn:Hrel; cycle 1.
  { split; [apply same_session_refl|done]. }
  apply get_relevant_tables_frame in Hrel as [all ->].
  assert (same_session s (set_all_tables all s)) as H1
    by (by unfold same_session).
  destruct ts as [|t0 ts]; [done|].
  destruct (connect _ _); [|done].
  destruct (if networked _ then list_foreign_keys _ _ else _) as [rows|];
    [|done].
  pose proof (foldl_add_foreign_key_session rows (set_all_tables all s)) as H2.
  destruct (if networked _ then list_columns _ _ else _) as [crows|]; simpl.
  - split; [|done].
    destruct (foldl_add_column_session crows
      (foldl add_foreign_key (set_all_tables all s) rows)) as [H3 _].
    eauto using same_session_trans.
  - split; [|done]. eauto using same_session_trans.
Qed.

Lemma _load_from_mapping_cache_session s :
  same_session s (snd (_load_from_mapping_cache s)).
Proof.
  unfold _load_from_mapping_cache.
  destruct (negb _); [apply same_session_refl|].
  destruct (decide _); [apply same_session_refl|]. by unfold same_session.
Qed.

Lemma map_focused_relationships_cases lower now s d db :
  map_focused_relationships lower now s d db
  = if fst (_load_from_mapping_cache s)
    then (true, snd (_load_from_mapping_cache s), d)
    else full_mapping lower now s d db.
Proof.
  unfold map_focused_relationships.
  pose proof (_load_from_mapping_cache_false s) as Hfalse.
  destruct (_load_from_mapping_cache s) as [[|] s']; simpl in *; [done|].
  by rewrite Hfalse.
Qed.

Lemma map_focused_relationships_session lower now s d db :
  same_session s (snd (fst (map_focused_relationships lower now s d db)))
  ∧ path_cache_file (snd (map_focused_relationships lower now s d db))
    = path_cache_file d.
Proof.
  rewrite map_focused_relationships_cases.
  destruct (fst (_load_from_mapping_cache s)); simpl.
  - split; [apply _load_from_mapping_cache_session|done].
  - apply full_mapping_session.
Qed.

(** What a full mapping that succeeds has done: the tables came from the
    discovery, and the mapping cache file was written from the mapper it
    leaves. *)
Lemma full_mapping_success lower now s d db s1 d1 :
  full_mapping lower now s d db = (true, s1, d1) →
  d1 = _save_mapping_cache now s1 d
  ∧ ∃ t ts s0,
      get_relevant_tables lower s db = Some (t :: ts, s0)
      ∧ all_tables s1 = list_to_set (t :: ts).
Proof.
  unfold full_mapping.
  destruct (get_relevant_tables lower s db) as [[ts s0]|] eqn:Hrel; [|done].
  pose proof (get_relevant_tables_all_tables _ _ _ _ _ Hrel) as ->.
  destruct ts as [|t0 ts]; [done|].
  destruct (connect _ _); [|done].
  destruct (if networked _ then list_foreign_keys _ _ else _) as [rows|];
    [|done].
  destruct (if networked _ then list_columns _ _ else _) as [crows|];
    [|done].
  intros [= <- <-]. split; [done|]. eexists t0, ts, _. split; [done|].
  match goal with
  | |- all_tables (foldl add_column (foldl add_foreign_key ?s0 rows) crows) = _ =>
    destruct (foldl_add_column_session crows (foldl add_foreign_key s0 rows))
      as (_ & _ & _ & ->);
    by destruct (foldl_add_foreign_key_frame rows s0) as (_ & -> & _)
  end.
Qed.

Lemma full_mapping_saves lower now s d db s1 d1 :
  full_mapping lower now s d db = (true, s1, d1) →
  d1 = _save_mapping_cache now s1 d.
Proof. intros H. by apply full_mapping_success in H as [? _]. Qed.

Lemma _load_from_mapping_cache_compatible s :
  fst (_load_from_mapping_cache s) = true ↔ cache_compatible s.
Proof.
  unfold _load_from_mapping_cache, cache_compatible.
  destruct (mc_truthy (mapping_cache s)) eqn:Htruthy; simpl.
  - destruct (decide _) as [Hno|Hyes]; simpl.
    + split; [done|]. intros [? ?]. destruct Hno as [?|?]; done.
    + split; [|done]. intros _. split.
      * destruct (decide (list_to_set (C := gset string) (patterns s)
          ⊆ list_to_set (default [] (mc_patterns (mapping_cache s)))));
          [done|]. destruct Hyes. by left.
      * destruct (decide (default "" (mc_db_info (mapping_cache s))
                          = db_info s)); [done|]. destruct Hyes. by right.
  - apply mc_truthy_false in Htruthy as [_ Hdb].
    split; [done|]. intros [_ Hdb']. rewrite Hdb in Hdb'. simpl in Hdb'.
    by destruct (db_info_nonempty s).
Qed.

(** What a restore assigns: the four attributes come from the cache. *)
Lemma _load_from_mapping_cache_restores s :
  fst (_load_from_mapping_cache s) = true →
  table_columns (snd (_load_from_mapping_cache s))
  = default ∅ (mc_table_columns (mapping_cache s))
  ∧ relationships (snd (_load_from_mapping_cache s))
    = default ∅ (mc_relationships (mapping_cache s))
  ∧ reverse_relationships (snd (_load_from_mapping_cache s))
    = default ∅ (mc_reverse_relationships (mapping_cache s))
  ∧ all_tables (snd (_load_from_mapping_cache s))
    = list_to_set (default [] (mc_all_tables (mapping_cache s))).
Proof.
  unfold _load_from_mapping_cache.
  destruct (negb _); [done|]. destruct (decide _); [done|].
  intros _. simpl. by rewrite !rebuild_id.
Qed.

(** C5.  [_load_from_mapping_cache] restores exactly when the requested
    patterns are a subset of the cached ones and the cached database string
    equals the current one.  Then [map_focused_relationships] returns [True]
    whatever the database answers, leaves the files alone, and the mapper
    has [table_columns], [relationships], [reverse_relationships] and
    [all_tables] as the cache holds them, the rest as it was.  Otherwise
    nothing is restored and the run is a fresh build: it fails when the
    discovery fails, and when it succeeds the tables are those the discovery
    found and the mapping cache file has been rewritten from the new graph.
    Cached patterns that are a strict subset of the requested ones are not
    compatible. *)
Theorem mapping_cache_restored_iff lower s now d db :
  (fst (_load_from_mapping_cache s) = true ↔ cache_compatible s)
  ∧ (cache_compatible s →
     ∃ s',
       _load_from_mapping_cache s = (true, s')
       ∧ map_focused_relationships lower now s d db = (true, s', d)
       ∧ table_columns s' = default ∅ (mc_table_columns (mapping_cache s))
       ∧ relationships s' = default ∅ (mc_relationships (mapping_cache s))
       ∧ reverse_relationships s'
         = default ∅ (mc_reverse_relationships (mapping_cache s))
       ∧ all_tables s'
         = list_to_set (default [] (mc_all_tables (mapping_cache s)))
       ∧ same_session s s')
  ∧ (¬ cache_compatible s →
     _load_from_mapping_cache s = (false, s)
     ∧ map_focused_relationships lower now s d db
       = full_mapping lower now s d db
     ∧ (get_relevant_tables lower s db = None →
        map_focused_relationships lower now s d db = (false, s, d))
     ∧ (∀ s' d',
          map_focused_relationships lower now s d db = (true, s', d') →
          d' = _save_mapping_cache now s' d
          ∧ ∃ t ts s0,
              get_relevant_tables lower s db = Some (t :: ts, s0)
              ∧ all_tables s' = list_to_set (t :: ts)))
  ∧ (list_to_set (C := gset string) (default [] (mc_patterns (mapping_cache s)))
       ⊂ list_to_set (patterns s) →
     ¬ cache_compatible s).
Proof.
  pose proof (_load_from_mapping_cache_compatible s) as Hiff.
  pose proof (map_focused_relationships_cases lower now s d db) as Hmap.
  split_and!; [done| | |].
  - intros Hc. apply Hiff in Hc.
    destruct (_load_from_mapping_cache_restores s Hc) as (Htc & Hf & Hr & Ha).
    pose proof (_load_from_mapping_cache_session s) as Hsess.
    rewrite Hc in Hmap.
    destruct (_load_from_mapping_cache s) as [ok s'] eqn:Hload.
    simpl in *. subst ok. exists s'. split_and!; done.
  - intros Hc.
    assert (fst (_load_from_mapping_cache s) = false) as Hfalse.
    { destruct (fst (_load_from_mapping_cache s)) eqn:Hfst; [|done].
      destruct Hc. by apply Hiff. }
    pose proof (_load_from_mapping_cache_false s Hfalse) as Hsnd.
    rewrite Hfalse in Hmap. split_and!.
    + destruct (_load_from_mapping_cache s); simpl in *. congruence.
    + done.
    + intros Hrel. rewrite Hmap. unfold full_mapping. by rewrite Hrel.
    + intros s' d' Hrun. rewrite Hmap in Hrun.
      by apply full_mapping_success in Hrun.
  - intros [_ Hnot] [Hsub _]. done.
Qed.

(** Restoring instead of mapping: a new mapper that finds the file of an
    earlier run and asks for fewer patterns has the graph of that run
    without the database; with one more pattern it runs the full mapping,
    which fails here because the database is away. *)
Lemma mapping_cache_narrowed_and_widened :
  match map_focused_relationships ascii_lower "t1" (new_shop_mapper no_files)
          no_files shop_db with
  | (_, s1, d1) =>
    match map_focused_relationships ascii_lower "t2"
            (__init__ ascii_lower "postgresql" {["database" := "shop"]}
               (Some ["user"]) d1) d1 unreachable_db with
    | (ok2, s2, d2) =>
      ok2 = true ∧ d2 = d1
      ∧ adj (relationships s2) "orders" = [("users", "user_id", "id")]
      ∧ table_columns s2 = table_columns s1
    end
    ∧ fst (fst (map_focused_relationships ascii_lower "t2"
                  (__init__ ascii_lower "postgresql" {["database" := "shop"]}
                     (Some ["user"; "order"; "item"]) d1)
                  d1 unreachable_db)) = false
  end.
Proof. vm_compute. by split_and!. Qed.

Lemma as_json_edges_idemp m :
  as_json_edges (as_json_edges m) = as_json_edges m.
Proof.
  unfold as_json_edges. rewrite <-map_fmap_compose.
  apply map_fmap_ext. intros t es _. simpl.
  rewrite <-list_fmap_compose. by apply list_fmap_ext.
Qed.

Lemma restore_saved now s d s2 :
  mapping_cache s2 = _load_mapping_cache (_save_mapping_cache now s d) →
  list_to_set (C := gset string) (patterns s2) = list_to_set (patterns s) →
  db_info s2 = db_info s →
  fst (_load_from_mapping_cache s2) = true
  ∧ table_columns (snd (_load_from_mapping_cache s2)) = table_columns s
  ∧ relationships (snd (_load_from_mapping_cache s2))
    = as_json_edges (relationships s)
  ∧ reverse_relationships (snd (_load_from_mapping_cache s2))
    = as_json_edges (reverse_relationships s)
  ∧ all_tables (snd (_load_from_mapping_cache s2)) = all_tables s.
Proof.
  intros Hmc Hpats Hdb. unfold _load_from_mapping_cache.
  rewrite Hmc. simpl. rewrite list_to_set_sorted, Hpats, Hdb.
  rewrite decide_False by (intros [?|?]; done).
  simpl. rewrite !rebuild_id, !(map_fmap_id (M := gmap string)).
  rewrite !as_json_edges_idemp. split_and!; try done.
  apply set_eq. intros t. by rewrite elem_of_list_to_set, elem_of_elements.
Qed.

(** C6, as amended.  After [_save_mapping_cache], a mapper that loaded the
    file, asks for the same set of patterns and has the same database string
    restores from the cache.  Its [table_columns] (and [all_tables]) are
    those of the mapper that saved; its [relationships] and
    [reverse_relationships] have the same keys and, under each key, the same
    edges in the same order with the same three strings, each as a list,
    also where the mapper that saved held a tuple: they are the saved ones
    after [json.dump] and [json.load], and unpack to the same triples. *)
Theorem mapping_cache_round_trip now s d s2 :
  mapping_cache s2 = _load_mapping_cache (_save_mapping_cache now s d) →
  list_to_set (C := gset string) (patterns s2) = list_to_set (patterns s) →
  db_info s2 = db_info s →
  ∃ s3,
    _load_from_mapping_cache s2 = (true, s3)
    ∧ table_columns s3 = table_columns s
    ∧ relationships s3 = as_json_edges (relationships s)
    ∧ reverse_relationships s3 = as_json_edges (reverse_relationships s)
    ∧ all_tables s3 = all_tables s
    ∧ (∀ t, adj (relationships s3) t = adj (relationships s) t)
    ∧ (∀ t, adj (reverse_relationships s3) t
            = adj (reverse_relationships s) t).
Proof.
  intros Hmc Hpats Hdb.
  destruct (restore_saved now s d s2 Hmc Hpats Hdb)
    as (Hok & Htc & Hf & Hr & Ha).
  destruct (_load_from_mapping_cache s2) as [ok s3]. simpl in *. subst ok.
  exists s3. split_and!; try done.
  - intros t. rewrite Hf. apply adj_as_json.
  - intros t. rewrite Hr. apply adj_as_json.
Qed.

Lemma mapping_cache_round_trip_witness :
  ∃ s3,
    _load_from_mapping_cache
      (__init__ ascii_lower "postgresql" {["database" := "shop"]}
         (Some ["user"; "order"]) (_save_mapping_cache "t1" shop no_files))
    = (true, s3)
    ∧ table_columns s3 = table_columns shop
    ∧ relationships s3 = as_json_edges (relationships shop)
    ∧ reverse_relationships s3 = as_json_edges (reverse_relationships shop)
    ∧ all_tables s3 = all_tables shop
    ∧ (∀ t, adj (relationships s3) t = adj (relationships shop) t)
    ∧ (∀ t, adj (reverse_relationships s3) t
            = adj (reverse_relationships shop) t).
Proof.
  apply (mapping_cache_round_trip "t1" shop no_files
    (__init__ ascii_lower "postgresql" {["database" := "shop"]}
       (Some ["user"; "order"]) (_save_mapping_cache "t1" shop no_files)));
    reflexivity.
Defined.

(** C6 fails on a graph built from the database: the mapping loop stored
    each edge as a tuple, and the mapper that restores from the file the run
    wrote holds it as a list, so the two indexes are not equal. *)
Lemma mapping_cache_round_trip_lists :
  match map_focused_relationships ascii_lower "t1" (new_shop_mapper no_files)
          no_files shop_db with
  | (ok1, s1, d1) =>
    match _load_from_mapping_cache (new_shop_mapper d1) with
    | (ok2, s2) =>
      ok1 = true ∧ ok2 = true
      ∧ d1 = _save_mapping_cache "t1" s1 no_files
      ∧ relationships s1 !! "orders"
        = Some [AsTuple ("users", "user_id", "id")]
      ∧ relationships s2 !! "orders"
        = Some [AsList ("users", "user_id", "id")]
      ∧ relationships s2 ≠ relationships s1
    end
  end.
Proof. vm_compute. by split_and!. Qed.

(** ** Failed mapping runs *)

(** C4, as amended.  A mapping run that fails leaves the cache files and
    [table_columns] as they were, and keeps every entry of [relationships]
    and [reverse_relationships] (each adjacency list of before is a prefix
    of the one after); a run that fails inside [get_relevant_tables] leaves
    the whole mapper as it was. *)
Theorem failed_mapping_keeps lower now s d db s' d' :
  map_focused_relationships lower now s d db = (false, s', d') →
  d' = d
  ∧ table_columns s' = table_columns s
  ∧ (∀ t, adj (relationships s) t `prefix_of` adj (relationships s') t)
  ∧ (∀ t, adj (reverse_relationships s) t
          `prefix_of` adj (reverse_relationships s') t)
  ∧ (get_relevant_tables lower s db = None → s' = s).
Proof.
  rewrite map_focused_relationships_cases. destruct (fst (_load_from_mapping_cache s)); [done|].
  unfold full_mapping.
  destruct (get_relevant_tables lower s db) as [[ts s1]|] eqn:Hrel; cycle 1.
  { intros [= <- <-]. done. }
  apply get_relevant_tables_frame in Hrel as [all ->].
  destruct ts as [|t0 ts]; [by intros [= <- <-]|].
  destruct (connect _ _); [|by intros [= <- <-]].
  destruct (if networked _ then list_foreign_keys _ _ else _) as [rows|];
    [|by intros [= <- <-]].
  destruct (if networked _ then list_columns _ _ else _) as [crows|];
    [done|].
  intros [= <- <-].
  destruct (foldl_add_foreign_key_frame rows (set_all_tables all s))
    as (-> & _ & Hf & Hr).
  done.
Qed.

Lemma failed_mapping_keeps_witness :
  snd (map_focused_relationships ascii_lower "t2" shop no_files shop_db_failing) = no_files
  ∧ table_columns
      (snd (fst (map_focused_relationships ascii_lower "t2" shop no_files shop_db_failing)))
    = table_columns shop
  ∧ (∀ t, adj (relationships shop) t
          `prefix_of`
          adj (relationships
                 (snd (fst (map_focused_relationships ascii_lower "t2" shop no_files
                              shop_db_failing)))) t)
  ∧ (∀ t, adj (reverse_relationships shop) t
          `prefix_of`
          adj (reverse_relationships
                 (snd (fst (map_focused_relationships ascii_lower "t2" shop no_files
                              shop_db_failing)))) t)
  ∧ (get_relevant_tables ascii_lower shop shop_db_failing = None →
     snd (fst (map_focused_relationships ascii_lower "t2" shop no_files shop_db_failing))
     = shop).
Proof.
  apply (failed_mapping_keeps ascii_lower "t2" shop no_files shop_db_failing).
  vm_compute. reflexivity.
Defined.

(** C4 fails when the run fails at the column query: a first run succeeds,
    a second run on the same mapper fails, and by then it has replaced
    [all_tables] and appended every foreign key a second time. *)
Lemma failed_mapping_overwrites :
  match map_focused_relationships ascii_lower "t1" (new_shop_mapper no_files) no_files
          shop_db with
  | (ok1, s1, d1) =>
    match map_focused_relationships ascii_lower "t2" s1 d1 shop_db_failing with
    | (ok2, s2, d2) =>
      ok1 = true ∧ ok2 = false
      ∧ relationships s1 !! "orders"
        = Some [AsTuple ("users", "user_id", "id")]
      ∧ relationships s2 !! "orders"
        = Some [AsTuple ("users", "user_id", "id");
                AsTuple ("users", "user_id", "id")]
      ∧ elements (all_tables s1) = ["order_items"; "orders"; "users"]
      ∧ elements (all_tables s2)
        = ["order_items"; "orders"; "user_roles"; "users"]
    end
  end.
Proof. vm_compute. by split_and!. Qed.



(** ** Further properties of the search *)

Lemma search_more_fuel s target max_depth fuel extra q v ps r :
  search fuel s target max_depth q v ps = Some r →
  search (fuel + extra) s target max_depth q v ps = Some r.
Proof.
  revert q v ps. induction fuel as [|fuel IH]; intros q v ps Hr.
  - destruct q as [|[c p] q]; simpl in Hr.
    + destruct extra; simpl; done.
    + destruct (decide (length ps < 10)%nat) as [|Hn]; [done|].
      destruct extra; simpl; by rewrite decide_False.
  - destruct q as [|[c p] q]; simpl in *; [done|].
    repeat destruct (decide _); try done; by apply IH.
Qed.

(** X1.  The loop of [find_path] ends: started from the source, it has its
    result after at most one iteration more than the graph has adjacency
    entries, and more iterations allowed give the same result. *)
Theorem search_iteration_bound s source target max_depth fuel :
  (search_fuel s ≤ fuel)%nat →
  ∃ ps,
    search fuel s target max_depth [(source, [source])] ∅ [] = Some ps
    ∧ search (search_fuel s) s target max_depth [(source, [source])] ∅ []
      = Some ps.
Proof.
  intros Hfuel.
  destruct (search_enough_fuel s target max_depth (search_fuel s)
              [(source, [source])] ∅ []) as [ps Hps].
  { rewrite (pending_empty (relationships s)).
    rewrite (pending_empty (reverse_relationships s)).
    unfold search_fuel. cbn [length]. lia. }
  exists ps. split; [|done].
  replace fuel with (search_fuel s + (fuel - search_fuel s))%nat by lia.
  by apply search_more_fuel.
Qed.

Lemma search_iteration_bound_witness :
  ∃ ps,
    search 100 shop "order_items" 5 [("users", ["users"])] ∅ [] = Some ps
    ∧ search (search_fuel shop) shop "order_items" 5 [("users", ["users"])] ∅ []
      = Some ps.
Proof.
  apply (search_iteration_bound shop "users" "order_items" 5 100).
  vm_compute. lia.
Defined.

Section walks.
Context (s : mapper) (source target : string) (max_depth : Z).

Lemma visit_edge_walk label visited c p w e :
  (∀ sc tc b, (b, sc, tc) = e → hop s c (label sc tc) b) →
  walk s source p c →
  Forall (λ e : string * path, walk s source (snd e) (fst e)) (fst w)
  ∧ Forall (λ p : path, walk s source p target) (snd w) →
  Forall (λ e : string * path, walk s source (snd e) (fst e))
    (fst (visit_edge label target max_depth visited p w e))
  ∧ Forall (λ p : path, walk s source p target)
      (snd (visit_edge label target max_depth visited p w e)).
Proof.
  intros Hhop Hp [Hq Hps]. destruct e as [[b sc] tc]. unfold visit_edge.
  assert (walk s source (p ++ [label sc tc; b]) b) as Hnew.
  { eapply walk_hop; [exact Hp|]. by apply Hhop. }
  destruct (decide (b = target)) as [->|?]; simpl.
  - split; [done|]. apply Forall_app. split; [done|].
    by apply Forall_singleton.
  - destruct (decide _); simpl; [|done].
    split; [|done]. apply Forall_app. split; [done|].
    by apply Forall_singleton.
Qed.

(** Whatever the loop completes is a walk of the graph from the source to
    the target. *)
Lemma search_walks fuel q v ps r :
  Forall (λ e : string * path, walk s source (snd e) (fst e)) q →
  Forall (λ p : path, walk s source p target) ps →
  search fuel s target max_depth q v ps = Some r →
  Forall (λ p : path, walk s source p target) r.
Proof.
  intros Hq Hps Hr.
  destruct (search_keeps s target max_depth
    (λ q _ ps, Forall (λ e : string * path, walk s source (snd e) (fst e)) q
               ∧ Forall (λ p : path, walk s source p target) ps))
    with (fuel := fuel) (q := q) (v := v) (ps := ps) (r := r)
    as (_ & _ & _ & H); try done.
  { intros c p q0 v0 ps0 [Hq0 Hps0]. split; [|done].
    by apply Forall_cons_1 in Hq0 as [_ ?]. }
  intros c p q0 v0 ps0 [Hq0 Hps0] _ _ _.
  apply Forall_cons_1 in Hq0 as [Hp Hq0]. simpl in Hp. unfold expand.
  apply (visit_edges_keeps target max_depth
    (λ w, Forall (λ e : string * path, walk s source (snd e) (fst e)) (fst w)
          ∧ Forall (λ p : path, walk s source p target) (snd w))).
  { intros w e He. apply (visit_edge_walk _ _ c); [|done].
    intros sc tc b <-. by apply hop_reverse. }
  apply (visit_edges_keeps target max_depth
    (λ w, Forall (λ e : string * path, walk s source (snd e) (fst e)) (fst w)
          ∧ Forall (λ p : path, walk s source p target) (snd w))).
  { intros w e He. apply (visit_edge_walk _ _ c); [|done].
    intros sc tc b <-. by apply hop_forward. }
  done.
Qed.
End walks.

(** X2.  When the path cache has no entry under the key of the query, every path
    [find_path] returns is a walk of the graph: it starts at the source, each
    step is a foreign key of [relationships] or of [reverse_relationships]
    with the label written for it, and it ends at the target. *)
Theorem find_path_returns_walks now s d source target max_depth :
  _get_from_cache s source target max_depth = None →
  ∃ ps s' d',
    find_path now s d source target max_depth = Some (ps, s', d')
    ∧ Forall (λ p : path, walk s source p target) ps.
Proof.
  intros Hmiss.
  destruct (find_path_cases now s d source target max_depth)
    as [[-> _]|[[-> [<- _]]|[(e & _ & _ & _ & He)|(ps & Hps & _ & _ & ->)]]].
  - by exists [], s, d.
  - exists [[source]], s, d. split; [done|].
    apply Forall_singleton. apply walk_start.
  - unfold _get_from_cache in Hmiss. congruence.
  - eexists ps, _, _. split; [done|].
    eapply search_walks; [| |exact Hps]; [|done].
    apply Forall_singleton. apply walk_start.
Qed.

Lemma find_path_returns_walks_witness :
  ∃ ps s' d',
    find_path "t1" shop no_files "users" "order_items" 5 = Some (ps, s', d')
    ∧ Forall (λ p : path, walk shop "users" p "order_items") ps.
Proof.
  apply (find_path_returns_walks "t1" shop no_files "users" "order_items" 5).
  reflexivity.
Defined.

Section growth.
Context (s : mapper) (target : string) (max_depth : Z).

Lemma visit_edge_extends label visited p w e :
  snd w `prefix_of` snd (visit_edge label target max_depth visited p w e).
Proof.
  destruct e as [[b sc] tc]. unfold visit_edge.
  repeat destruct (decide _); simpl; try done. by apply prefix_app_r.
Qed.

Lemma visit_edges_extends label visited p edges w :
  snd w `prefix_of` snd (visit_edges label target max_depth visited p edges w).
Proof.
  apply (visit_edges_keeps target max_depth (λ w', snd w `prefix_of` snd w'));
    [|done].
  intros w' e _ Hw'. etrans; [exact Hw'|]. apply visit_edge_extends.
Qed.

(** The loop only appends to the result list. *)
Lemma search_extends fuel q v ps r :
  search fuel s target max_depth q v ps = Some r → ps `prefix_of` r.
Proof.
  intros Hr.
  destruct (search_keeps s target max_depth (λ _ _ ps', ps `prefix_of` ps'))
    with (fuel := fuel) (q := q) (v := v) (ps := ps) (r := r)
    as (_ & _ & H); try done.
  intros c p q0 v0 ps0 Hps0 _ _ _. unfold expand.
  etrans; [exact Hps0|]. etrans; [|apply visit_edges_extends].
  apply (visit_edges_extends forward_label _ p _ (q0, ps0)).
Qed.

Lemma visit_edges_finds label visited p edges w sc tc :
  (target, sc, tc) ∈ edges →
  p ++ [label sc tc; target]
  ∈ snd (visit_edges label target max_depth visited p edges w).
Proof.
  unfold visit_edges. revert w.
  induction edges as [|e edges IH]; intros w Hin; [by inversion Hin|].
  apply elem_of_cons in Hin as [<-|Hin]; simpl; [|by apply IH].
  eapply elem_of_prefix; [|apply (visit_edges_extends label visited p edges)].
  unfold visit_edge. rewrite decide_True by done. simpl.
  apply elem_of_app. right. by left.
Qed.
End growth.

(** X3.  A foreign key between the source and the target, in either direction,
    is always found: with no cache entry for the query, both tables in scope
    and a depth of at least 1, the one-hop path of every such foreign key is
    among the paths returned. *)
Theorem find_path_finds_direct now s d source target max_depth l :
  in_scope s source target → source ≠ target →
  _get_from_cache s source target max_depth = None →
  1 ≤ max_depth →
  hop s source l target →
  ∃ ps s' d',
    find_path now s d source target max_depth = Some (ps, s', d')
    ∧ [source; l; target] ∈ ps.
Proof.
  intros [Hs Ht] Hne Hmiss Hd Hhop.
  destruct (find_path_miss now s d source target max_depth)
    as (ps & Hps & ->); try done.
  eexists ps, _, _. split; [done|].
  unfold search_fuel in Hps. simpl in Hps.
  rewrite decide_False in Hps by lia.
  rewrite decide_False in Hps by set_solver.
  apply search_extends in Hps.
  eapply elem_of_prefix; [|exact Hps]. unfold expand.
  destruct Hhop as [b sc tc Hin|b sc tc Hin].
  - eapply elem_of_prefix; [|apply visit_edges_extends].
    by apply (visit_edges_finds b max_depth forward_label _ [source]).
  - by apply (visit_edges_finds b max_depth reverse_label _ [source]).
Qed.

Lemma find_path_finds_direct_witness :
  ∃ ps s' d',
    find_path "t1" shop no_files "orders" "users" 1 = Some (ps, s', d')
    ∧ ["orders"; forward_label "user_id" "id"; "users"] ∈ ps.
Proof.
  apply (find_path_finds_direct "t1" shop no_files "orders" "users" 1).
  - split; vm_compute; eauto.
  - discriminate.
  - reflexivity.
  - lia.
  - apply hop_forward. vm_compute. by left.
Defined.

(** X4.  With a depth of 0 or less the search finds nothing: for two different
    tables and no cache entry for the query, [find_path] returns the empty
    list. *)
Theorem find_path_depth_zero now s d source target max_depth :
  source ≠ target →
  _get_from_cache s source target max_depth = None →
  max_depth ≤ 0 →
  returned (find_path now s d source target max_depth) = Some [].
Proof.
  intros Hne Hmiss Hd.
  destruct (find_path_cases now s d source target max_depth)
    as [[-> _]|[[_ [? _]]|[(e & _ & _ & _ & He)|(ps & Hps & _ & _ & ->)]]];
    [done|done| |].
  - unfold _get_from_cache in Hmiss. congruence.
  - simpl. unfold search_fuel in Hps. simpl in Hps.
    rewrite decide_True in Hps by lia. by destruct (edge_count _ + _)%nat.
Qed.

Lemma find_path_depth_zero_witness :
  returned (find_path "t1" shop no_files "users" "orders" 0) = Some [].
Proof.
  apply (find_path_depth_zero "t1" shop no_files "users" "orders" 0).
  - discriminate.
  - reflexivity.
  - lia.
Defined.

Section order.
Context (s : mapper) (target : string) (max_depth : Z).

Lemma shorter_snoc (l : list path) (x : path) :
  StronglySorted shorter l → Forall (λ y, shorter y x) l →
  StronglySorted shorter (l ++ [x]).
Proof.
  intros Hl Hx. apply StronglySorted_app. split_and!; [|done|].
  - intros x1 x2 Hx1 ->%list_elem_of_singleton.
    by eapply Forall_forall in Hx.
  - repeat constructor.
Qed.

Lemma visit_edge_level label visited p w e :
  level p w → level p (visit_edge label target max_depth visited p w e).
Proof.
  intros (Hq & Hps & Hqb & Hpsb & Hql). destruct e as [[b sc] tc].
  unfold visit_edge.
  assert (length (p ++ [label sc tc; b]) = length p + 2)%nat as Hlen.
  { rewrite length_app. simpl. lia. }
  destruct (decide (b = target)) as [->|?]; simpl.
  - unfold level. simpl. split_and!; try done.
    + apply shorter_snoc; [done|].
      eapply Forall_impl; [exact Hpsb|]. intros x Hx. unfold shorter.
      rewrite Hlen. simpl in Hx. lia.
    + apply Forall_app. split; [done|]. apply Forall_singleton.
      rewrite Hlen. lia.
  - destruct (decide _); [|done].
    unfold level. simpl. rewrite fmap_app. simpl. split_and!; try done.
    + apply shorter_snoc; [done|].
      eapply Forall_impl; [exact Hqb|]. intros x Hx. unfold shorter.
      rewrite Hlen. simpl in Hx. lia.
    + apply Forall_app. split; [done|]. apply Forall_singleton.
      rewrite Hlen. lia.
    + apply Forall_app. split; [done|]. apply Forall_singleton.
      rewrite Hlen. lia.
Qed.

Lemma search_levels fuel q v ps r :
  levels q ps →
  search fuel s target max_depth q v ps = Some r →
  StronglySorted shorter r.
Proof.
  intros Hlv Hr.
  destruct (search_keeps s target max_depth (λ q _ ps, levels q ps))
    with (fuel := fuel) (q := q) (v := v) (ps := ps) (r := r)
    as (_ & _ & _ & H & _); try done.
  { intros c p q0 v0 ps0 (Hq0 & Hps0 & Hb). unfold levels.
    rewrite fmap_cons in Hq0, Hb. simpl in *.
    apply StronglySorted_inv in Hq0 as [Hq0 _].
    apply Forall_cons_1 in Hb as [_ Hb].
    split_and!; try done.
    eapply Forall_impl; [exact Hb|]. intros h Hh.
    by apply Forall_cons_1 in Hh as [_ ?]. }
  intros c p q0 v0 ps0 (Hq0 & Hps0 & Hb) _ _ _.
  rewrite fmap_cons in Hq0, Hb. simpl in *.
  apply StronglySorted_inv in Hq0 as [Hq0 Hp].
  apply Forall_cons_1 in Hb as [Hbp _].
  apply Forall_cons_1 in Hbp as [_ Hbp].
  apply Forall_app in Hbp as [Hbq Hbps].
  assert (level p (expand s target max_depth ({[c]} ∪ v0) c p (q0, ps0)))
    as (Hq1 & Hps1 & Hqb1 & Hpsb1 & Hql1).
  { unfold expand.
    apply (visit_edges_keeps target max_depth (level p));
      [intros w e _; apply visit_edge_level|].
    apply (visit_edges_keeps target max_depth (level p));
      [intros w e _; apply visit_edge_level|].
    unfold level. simpl. split_and!; done. }
  unfold levels. split_and!; try done.
  eapply Forall_impl; [exact Hql1|]. intros h Hh.
  apply Forall_app. split.
  - eapply Forall_impl; [exact Hqb1|]. intros x Hx. simpl in *. lia.
  - eapply Forall_impl; [exact Hpsb1|]. intros x Hx. simpl in *. lia.
Qed.
End order.

(** X5.  With no cache entry for the query, the paths [find_path] returns are
    in order of length, shortest first. *)
Theorem find_path_by_length now s d source target max_depth :
  _get_from_cache s source target max_depth = None →
  ∃ ps s' d',
    find_path now s d source target max_depth = Some (ps, s', d')
    ∧ by_length ps.
Proof.
  intros Hmiss.
  destruct (find_path_cases now s d source target max_depth)
    as [[-> _]|[[-> _]|[(e & _ & _ & _ & He)|(ps & Hps & _ & _ & ->)]]].
  - exists [], s, d. split; [done|]. constructor.
  - exists [[source]], s, d. split; [done|]. by repeat constructor.
  - unfold _get_from_cache in Hmiss. congruence.
  - eexists ps, _, _. split; [done|].
    apply StronglySorted_Sorted.
    eapply search_levels; [|exact Hps].
    unfold levels. simpl. split_and!; repeat constructor.
Qed.

Lemma find_path_by_length_witness :
  ∃ ps s' d',
    find_path "t1" shop no_files "users" "order_items" 5 = Some (ps, s', d')
    ∧ by_length ps.
Proof.
  apply (find_path_by_length "t1" shop no_files "users" "order_items" 5).
  reflexivity.
Defined.

(** ** The path cache across calls *)

(** X6.  A search is always cached, an empty result too: after a call that found
    no entry for its key, the entry of the query holds the returned list, the
    time, and the triple; the file holds the whole dictionary; the mapping
    cache file is as it was. *)
Theorem find_path_stores_result now s d source target max_depth :
  in_scope s source target → source ≠ target →
  _get_from_cache s source target max_depth = None →
  ∃ ps s' d',
    find_path now s d source target max_depth = Some (ps, s', d')
    ∧ _get_from_cache s' source target max_depth
      = Some (CacheEntry ps now source target max_depth)
    ∧ path_cache_file d' = Some (path_cache s')
    ∧ mapping_cache_file d' = mapping_cache_file d.
Proof.
  intros [Hs Ht] Hne Hmiss.
  destruct (find_path_miss now s d source target max_depth)
    as (ps & _ & ->); try done.
  eexists ps, _, _. split; [done|]. split_and!; try done.
  unfold _get_from_cache. simpl. apply lookup_insert_eq.
Qed.

Lemma find_path_stores_result_witness :
  ∃ ps s' d',
    find_path "t1" shop no_files "users" "order_items" 2 = Some (ps, s', d')
    ∧ _get_from_cache s' "users" "order_items" 2
      = Some (CacheEntry ps "t1" "users" "order_items" 2)
    ∧ path_cache_file d' = Some (path_cache s')
    ∧ mapping_cache_file d' = mapping_cache_file no_files.
Proof.
  apply (find_path_stores_result "t1" shop no_files "users" "order_items" 2).
  - split; vm_compute; eauto.
  - discriminate.
  - reflexivity.
Defined.

(** X7.  Nothing is ever evicted or rewritten: every entry of the path cache is
    still there, unchanged, after a call of [find_path], and a call adds at
    most one entry. *)
Theorem find_path_keeps_entries now s d source target max_depth :
  ∃ ps s' d',
    find_path now s d source target max_depth = Some (ps, s', d')
    ∧ path_cache s ⊆ path_cache s'
    ∧ (size (path_cache s') ≤ S (size (path_cache s)))%nat.
Proof.
  destruct (find_path_cases now s d source target max_depth)
    as [[-> _]|[[-> _]|[(e & -> & _)|(ps & _ & [Hs Ht] & Hne & Hfp)]]];
    try (eexists _, _, _; split; [done|]; split; [done|lia]).
  destruct (path_cache s !! _get_cache_key source target max_depth)
    as [e|] eqn:Hkey.
  { rewrite (find_path_hit now s d source target max_depth e) in Hfp by done.
    injection Hfp as <- _ _.
    rewrite (find_path_hit now s d source target max_depth e) by done.
    eexists _, _, _; split; [done|]; split; [done|lia]. }
  rewrite Hfp. eexists ps, _, _. split; [done|]. simpl. split.
  - by apply insert_subseteq.
  - by rewrite map_size_insert_None.
Qed.

(** X8.  The cache outlives the mapper: after a call that searched, a mapper
    that read the path cache file and has both tables in scope answers the
    same query with the same list, whatever its graph, without searching or
    writing. *)
Theorem find_path_later_session now now' s d source target max_depth :
  in_scope s source target → source ≠ target →
  _get_from_cache s source target max_depth = None →
  ∃ ps s' d',
    find_path now s d source target max_depth = Some (ps, s', d')
    ∧ ∀ s2,
        path_cache s2 = _load_cache d' → in_scope s2 source target →
        find_path now' s2 d' source target max_depth = Some (ps, s2, d').
Proof.
  intros [Hs Ht] Hne Hmiss.
  destruct (find_path_miss now s d source target max_depth)
    as (ps & _ & ->); try done.
  eexists ps, _, _. split; [done|]. intros s2 Hpc [Hs2 Ht2].
  apply (find_path_hit now' s2 _ source target max_depth
           (CacheEntry ps now source target max_depth)); try done.
  unfold _get_from_cache. rewrite Hpc. unfold _load_cache. simpl.
  apply lookup_insert_eq.
Qed.

Lemma find_path_later_session_witness :
  ∃ ps s' d',
    find_path "t1" shop no_files "users" "order_items" 5 = Some (ps, s', d')
    ∧ ∀ s2,
        path_cache s2 = _load_cache d' → in_scope s2 "users" "order_items" →
        find_path "t2" s2 d' "users" "order_items" 5 = Some (ps, s2, d').
Proof.
  apply (find_path_later_session "t1" "t2" shop no_files "users" "order_items" 5).
  - split; vm_compute; eauto.
  - discriminate.
  - reflexivity.
Defined.

(** ** Mapping runs *)

(** X9.  A mapping run never invalidates the path cache: whether it restores,
    maps or fails, [path_cache] and the path cache file are as before, so a
    query cached before the run is answered from the cache after it, as long
    as both tables are in scope, whatever graph the run has built. *)
Theorem mapping_keeps_path_cache lower now now' s d db source target max_depth e :
  _get_from_cache s source target max_depth = Some e →
  source ≠ target →
  in_scope (snd (fst (map_focused_relationships lower now s d db))) source target →
  path_cache (snd (fst (map_focused_relationships lower now s d db))) = path_cache s
  ∧ path_cache_file (snd (map_focused_relationships lower now s d db))
    = path_cache_file d
  ∧ find_path now' (snd (fst (map_focused_relationships lower now s d db)))
      (snd (map_focused_relationships lower now s d db)) source target max_depth
    = Some (ce_paths e,
            snd (fst (map_focused_relationships lower now s d db)),
            snd (map_focused_relationships lower now s d db)).
Proof.
  intros He Hne [Hs Ht].
  destruct (map_focused_relationships_session lower now s d db)
    as [(_ & _ & _ & Hpc & _) Hfile].
  split_and!; [done..|].
  apply find_path_hit; try done.
  unfold _get_from_cache in *. by rewrite Hpc.
Qed.

Lemma mapping_keeps_path_cache_witness :
  path_cache (snd (fst (map_focused_relationships ascii_lower "t1" shop_cached no_files
                          shop_db_failing)))
  = path_cache shop_cached
  ∧ path_cache_file (snd (map_focused_relationships ascii_lower "t1" shop_cached no_files
                            shop_db_failing))
    = path_cache_file no_files
  ∧ find_path "t2"
      (snd (fst (map_focused_relationships ascii_lower "t1" shop_cached no_files
                   shop_db_failing)))
      (snd (map_focused_relationships ascii_lower "t1" shop_cached no_files shop_db_failing))
      "users" "orders" 3
    = Some ([["users"; "--old-->id-->"; "orders"]],
            snd (fst (map_focused_relationships ascii_lower "t1" shop_cached no_files
                        shop_db_failing)),
            snd (map_focused_relationships ascii_lower "t1" shop_cached no_files
                   shop_db_failing)).
Proof.
  apply (mapping_keeps_path_cache ascii_lower "t1" "t2" shop_cached no_files shop_db_failing
           "users" "orders" 3
           (CacheEntry [["users"; "--old-->id-->"; "orders"]] "t0"
              "users" "orders" 3)).
  - by vm_compute.
  - discriminate.
  - split; vm_compute; eauto.
Defined.

Lemma loaded_edges_as_json d :
  as_json_edges (default ∅ (mc_relationships (_load_mapping_cache d)))
  = default ∅ (mc_relationships (_load_mapping_cache d))
  ∧ as_json_edges (default ∅ (mc_reverse_relationships (_load_mapping_cache d)))
    = default ∅ (mc_reverse_relationships (_load_mapping_cache d)).
Proof.
  unfold _load_mapping_cache.
  destruct (mapping_cache_file d) as [c|]; simpl; [|done].
  destruct (mc_relationships c), (mc_reverse_relationships c); simpl;
    by rewrite ?as_json_edges_idemp.
Qed.

(** X10.  A successful mapping run can be replayed without the database: when
    the run of a new mapper succeeds, a second new mapper made with the same
    arguments from the files the run left succeeds too, whatever the database
    answers, and changes no file.  It has the same [table_columns] and
    [all_tables]; its [relationships] and [reverse_relationships] are those
    of the first mapper as [json.load] gives them, every edge a list, and
    unpack to the same triples under every table. *)
Theorem mapping_replayed_from_cache lower now now' ty params pats d db db' s1 d1 :
  map_focused_relationships lower now (__init__ lower ty params pats d) d db
  = (true, s1, d1) →
  ∃ s2,
    map_focused_relationships lower now' (__init__ lower ty params pats d1) d1 db'
    = (true, s2, d1)
    ∧ table_columns s2 = table_columns s1
    ∧ all_tables s2 = all_tables s1
    ∧ relationships s2 = as_json_edges (relationships s1)
    ∧ reverse_relationships s2 = as_json_edges (reverse_relationships s1)
    ∧ (∀ t, adj (relationships s2) t = adj (relationships s1) t)
    ∧ (∀ t, adj (reverse_relationships s2) t
            = adj (reverse_relationships s1) t).
Proof.
  intros Hrun.
  cut (∃ s2,
    map_focused_relationships lower now' (__init__ lower ty params pats d1) d1 db'
    = (true, s2, d1)
    ∧ table_columns s2 = table_columns s1
    ∧ all_tables s2 = all_tables s1
    ∧ relationships s2 = as_json_edges (relationships s1)
    ∧ reverse_relationships s2 = as_json_edges (reverse_relationships s1)).
  { intros (s2 & Hmap & Htc & Ha & Hf & Hr). exists s2.
    split_and!; try done; intros t; rewrite ?Hf, ?Hr; apply adj_as_json. }
  revert Hrun. rewrite !map_focused_relationships_cases.
  destruct (fst (_load_from_mapping_cache (__init__ lower ty params pats d)))
    eqn:Hload.
  - intros [= <- <-]. rewrite Hload. eexists. split; [done|].
    destruct (_load_from_mapping_cache_restores _ Hload) as (_ & -> & -> & _).
    destruct (loaded_edges_as_json d) as [Hf Hr]. simpl.
    by rewrite Hf, Hr.
  - intros Hfull.
    pose proof (full_mapping_saves _ _ _ _ _ _ _ Hfull) as ->.
    destruct (full_mapping_session lower now (__init__ lower ty params pats d) d db)
      as [(Hty & Hparams & Hpats & _) _].
    rewrite Hfull in Hty, Hparams, Hpats. simpl in Hty, Hparams, Hpats.
    destruct (restore_saved now s1 d
      (__init__ lower ty params pats (_save_mapping_cache now s1 d)))
      as (-> & Htc & Hf & Hr & Hall); try done.
    + simpl. by rewrite Hpats.
    + unfold db_info. simpl. by rewrite Hty, Hparams.
    + eauto 10.
Qed.

Lemma mapping_replayed_from_cache_witness :
  ∃ s2,
    map_focused_relationships ascii_lower "t2"
      (__init__ ascii_lower "PostgreSQL" {["database" := "shop"]}
         (Some ["user"; "order"])
         (snd (map_focused_relationships ascii_lower "t1"
                 (new_shop_mapper no_files) no_files shop_db)))
      (snd (map_focused_relationships ascii_lower "t1"
              (new_shop_mapper no_files) no_files shop_db))
      unreachable_db
    = (true, s2,
       snd (map_focused_relationships ascii_lower "t1"
              (new_shop_mapper no_files) no_files shop_db))
    ∧ table_columns s2
      = table_columns (snd (fst (map_focused_relationships ascii_lower "t1"
                                   (new_shop_mapper no_files) no_files shop_db)))
    ∧ all_tables s2
      = all_tables (snd (fst (map_focused_relationships ascii_lower "t1"
                                (new_shop_mapper no_files) no_files shop_db)))
    ∧ relationships s2
      = as_json_edges
          (relationships (snd (fst (map_focused_relationships ascii_lower "t1"
                                      (new_shop_mapper no_files) no_files
                                      shop_db))))
    ∧ reverse_relationships s2
      = as_json_edges
          (reverse_relationships
             (snd (fst (map_focused_relationships ascii_lower "t1"
                          (new_shop_mapper no_files) no_files shop_db))))
    ∧ (∀ t, adj (relationships s2) t
            = adj (relationships
                     (snd (fst (map_focused_relationships ascii_lower "t1"
                                  (new_shop_mapper no_files) no_files
                                  shop_db)))) t)
    ∧ (∀ t, adj (reverse_relationships s2) t
            = adj (reverse_relationships
                     (snd (fst (map_focused_relationships ascii_lower "t1"
                                  (new_shop_mapper no_files) no_files
                                  shop_db)))) t).
Proof.
  apply (mapping_replayed_from_cache ascii_lower "t1" "t2" "PostgreSQL"
           {["database" := "shop"]} (Some ["user"; "order"]) no_files shop_db
           unreachable_db).
  vm_compute. reflexivity.
Defined.

Lemma add_foreign_key_mirrored s row :
  mirrored s → mirrored (add_foreign_key s row).
Proof.
  intros Hm. unfold add_foreign_key.
  destruct (fk_source_table row) as [src|]; [|done].
  destruct (fk_target_table row) as [tgt|]; [|done].
  destruct (_ && _); [|done].
  intros a b x y. simpl. rewrite !adj_append.
  specialize (Hm a b x y).
  destruct (decide (src = a)) as [->|Ha], (decide (tgt = b)) as [->|Hb];
    rewrite ?elem_of_app, ?list_elem_of_singleton, Hm;
    split; intros H; try done.
  - destruct H as [?|[= -> ->]]; [by left|by right].
  - destruct H as [?|[= -> ->]]; [by left|by right].
  - by destruct H as [?|[= ? ? ?]].
  - by left.
  - by left.
  - by destruct H as [?|[= ? ? ?]].
Qed.

Lemma foldl_add_foreign_key_mirrored rows s :
  mirrored s → mirrored (foldl add_foreign_key s rows).
Proof.
  revert s. induction rows as [|row rows IH]; intros s Hm; simpl; [done|].
  by apply IH, add_foreign_key_mirrored.
Qed.

Lemma full_mapping_mirrored lower now s d db :
  mirrored s → mirrored (snd (fst (full_mapping lower now s d db))).
Proof.
  intros Hm. unfold full_mapping.
  destruct (get_relevant_tables lower s db) as [[ts s1]|] eqn:Hrel; [|done].
  apply get_relevant_tables_frame in Hrel as [all ->].
  assert (mirrored (set_all_tables all s)) as H1 by done.
  destruct ts as [|t0 ts]; [done|].
  destruct (connect _ _); [|done].
  destruct (if networked _ then list_foreign_keys _ _ else _) as [rows|];
    [|done].
  pose proof (foldl_add_foreign_key_mirrored rows _ H1) as H2.
  destruct (if networked _ then list_columns _ _ else _) as [crows|]; simpl;
    [|done].
  destruct (foldl_add_column_session crows
    (foldl add_foreign_key (set_all_tables all s) rows)) as (_ & Hf & Hr & _).
  intros a b x y. rewrite Hf, Hr. apply H2.
Qed.

Lemma mirrored_new lower ty params pats d : mirrored (__init__ lower ty params pats d).
Proof.
  intros a b x y. unfold adj, stored. simpl. rewrite !lookup_empty. simpl.
  split; intros H; inversion H.
Qed.

(** X11.  The two indexes stay mirror images of each other under a mapping run
    that does not restore from the cache: if every foreign key listed
    forward was listed in reverse with its columns swapped, and conversely,
    this still holds after the run, whether it succeeds or fails. *)
Theorem mapping_keeps_mirrored lower now s d db :
  mirrored s →
  fst (_load_from_mapping_cache s) = false →
  mirrored (snd (fst (map_focused_relationships lower now s d db))).
Proof.
  intros Hm Hload. rewrite map_focused_relationships_cases, Hload.
  by apply full_mapping_mirrored.
Qed.

Lemma mapping_keeps_mirrored_witness :
  mirrored (snd (fst (map_focused_relationships ascii_lower "t1"
                        (new_shop_mapper no_files) no_files shop_db))).
Proof.
  apply (mapping_keeps_mirrored ascii_lower "t1" (new_shop_mapper no_files) no_files shop_db).
  - apply mirrored_new.
  - reflexivity.
Defined.

(** X12.  For the type [sqlite] no foreign-key and no column query is issued: a
    run that does not restore from the cache leaves [table_columns],
    [relationships] and [reverse_relationships] as they were, also when it
    reports success. *)
Theorem sqlite_mapping_adds_nothing lower now s d db :
  db_type s = "sqlite" →
  fst (_load_from_mapping_cache s) = false →
  table_columns (snd (fst (map_focused_relationships lower now s d db)))
  = table_columns s
  ∧ relationships (snd (fst (map_focused_relationships lower now s d db)))
    = relationships s
  ∧ reverse_relationships (snd (fst (map_focused_relationships lower now s d db)))
    = reverse_relationships s.
Proof.
  intros Hty Hload. rewrite map_focused_relationships_cases, Hload.
  unfold full_mapping.
  destruct (get_relevant_tables lower s db) as [[ts s1]|] eqn:Hrel; [|done].
  apply get_relevant_tables_frame in Hrel as [all ->].
  destruct ts as [|t0 ts]; [done|].
  destruct (connect _ _); [|done].
  assert (∀ s', db_type s' = db_type s → networked s' = false) as Hn.
  { intros s' Hs'. unfold networked. by rewrite Hs', Hty. }
  rewrite (Hn (set_all_tables all s)) by done. simpl.
  by rewrite (Hn (set_all_tables all s)) by done.
Qed.

Lemma sqlite_mapping_adds_nothing_witness :
  table_columns
    (snd (fst (map_focused_relationships ascii_lower "t1"
                 (__init__ ascii_lower "sqlite" {["database" := "shop.db"]} None no_files)
                 no_files shop_db)))
  = table_columns (__init__ ascii_lower "sqlite" {["database" := "shop.db"]} None no_files)
  ∧ relationships
      (snd (fst (map_focused_relationships ascii_lower "t1"
                   (__init__ ascii_lower "sqlite" {["database" := "shop.db"]} None no_files)
                   no_files shop_db)))
    = relationships (__init__ ascii_lower "sqlite" {["database" := "shop.db"]} None no_files)
  ∧ reverse_relationships
      (snd (fst (map_focused_relationships ascii_lower "t1"
                   (__init__ ascii_lower "sqlite" {["database" := "shop.db"]} None no_files)
                   no_files shop_db)))
    = reverse_relationships
        (__init__ ascii_lower "sqlite" {["database" := "shop.db"]} None no_files).
Proof.
  apply (sqlite_mapping_adds_nothing ascii_lower "t1"
    (__init__ ascii_lower "sqlite" {["database" := "shop.db"]} None no_files)
    no_files shop_db); reflexivity.
Defined.

Lemma columns_of_cons t t' c ty rows :
  columns_of t ((t', c, ty) :: rows)
  = if decide (t' = t) then Column c ty :: columns_of t rows
    else columns_of t rows.
Proof.
  unfold columns_of. rewrite filter_cons. simpl. by destruct (decide _).
Qed.

Lemma foldl_add_column_grouped rows s t :
  table_columns (foldl add_column s rows) !! t
  = match columns_of t rows with
    | [] => table_columns s !! t
    | c :: cs => Some (default [] (table_columns s !! t) ++ c :: cs)
    end.
Proof.
  revert s. induction rows as [|[[t' c] ty] rows IH]; intros s; [done|].
  cbn [foldl]. rewrite IH, columns_of_cons.
  unfold add_column, set_table_columns. cbn [table_columns].
  destruct (decide (t' = t)) as [->|Hne].
  - rewrite lookup_insert_eq.
    destruct (columns_of t rows) as [|c' cs]; simpl; [done|].
    by rewrite <-app_assoc.
  - by rewrite lookup_insert_ne.
Qed.

(** X13.  The column loop groups the rows by table and keeps their order: after
    a successful mapping without cache, the entry of a table in
    [table_columns] is its old entry followed by the descriptors of its
    rows in the order the column query gave them, and a table without rows
    has the entry it had, or none. *)
Theorem mapping_groups_columns lower now s d db s1 d1 :
  fst (_load_from_mapping_cache s) = false →
  map_focused_relationships lower now s d db = (true, s1, d1) →
  ∃ tables rows,
    (if networked s then list_columns db tables else Some []) = Some rows
    ∧ ∀ t,
        table_columns s1 !! t
        = match columns_of t rows with
          | [] => table_columns s !! t
          | c :: cs => Some (default [] (table_columns s !! t) ++ c :: cs)
          end.
Proof.
  intros Hload. rewrite map_focused_relationships_cases, Hload.
  unfold full_mapping.
  destruct (get_relevant_tables lower s db) as [[ts s0]|] eqn:Hrel; [|done].
  apply get_relevant_tables_frame in Hrel as [all ->].
  destruct ts as [|t0 ts]; [done|].
  destruct (connect _ _); [|done].
  destruct (if networked _ then list_foreign_keys _ _ else _) as [rows|];
    [|done].
  assert (networked (foldl add_foreign_key (set_all_tables all s) rows)
          = networked s) as ->.
  { destruct (foldl_add_foreign_key_session rows (set_all_tables all s))
      as (Hty & _). unfold networked. by rewrite Hty. }
  destruct (if networked s then list_columns _ _ else _) as [crows|] eqn:Hc;
    [|done].
  intros [= <- <-]. exists (t0 :: ts), crows. split; [done|].
  intros t. rewrite foldl_add_column_grouped.
  destruct (foldl_add_foreign_key_frame rows (set_all_tables all s))
    as (-> & _). done.
Qed.

Lemma mapping_groups_columns_witness :
  ∃ tables rows,
    (if networked (new_shop_mapper no_files) then list_columns shop_db tables
     else Some []) = Some rows
    ∧ ∀ t,
        table_columns
          (snd (fst (map_focused_relationships ascii_lower "t1" (new_shop_mapper no_files)
                       no_files shop_db))) !! t
        = match columns_of t rows with
          | [] => table_columns (new_shop_mapper no_files) !! t
          | c :: cs =>
            Some (default [] (table_columns (new_shop_mapper no_files) !! t)
                  ++ c :: cs)
          end.
Proof.
  apply (mapping_groups_columns ascii_lower "t1" (new_shop_mapper no_files) no_files shop_db
           _ (snd (map_focused_relationships ascii_lower "t1" (new_shop_mapper no_files)
                     no_files shop_db))).
  - reflexivity.
  - vm_compute. reflexivity.
Defined.

(** ** Discovery *)

Lemma expansion_members rows (acc : gset string) t :
  t ∈ foldl (λ (acc : gset string) (row : string * option string),
               let acc := {[fst row]} ∪ acc in
               match snd row with
               | Some t => if truthy (Some t) then {[t]} ∪ acc else acc
               | None => acc
               end) acc rows
  ↔ t ∈ acc
    ∨ ∃ row, row ∈ rows
        ∧ (t = fst row ∨ (snd row = Some t ∧ t ≠ "")).
Proof.
  revert acc. induction rows as [|[r1 r2] rows IH]; intros acc; simpl.
  { split; [by left|]. intros [?|(row & Hrow & _)]; [done|]. inversion Hrow. }
  rewrite IH. clear IH. split.
  - intros [Hacc|(row & Hrow & Ht)].
    + destruct r2 as [t2|]; simpl in Hacc.
      * destruct (String.eqb t2 "") eqn:Heq; simpl in Hacc.
        -- apply elem_of_union in Hacc as [->%elem_of_singleton|?];
             [|by left]. right. exists (r1, Some t2). split; [by left|by left].
        -- apply elem_of_union in Hacc as [->%elem_of_singleton|Hacc].
           { right. exists (r1, Some t2). split; [by left|]. right.
             split; [done|]. intros ->. done. }
           apply elem_of_union in Hacc as [->%elem_of_singleton|?];
             [|by left]. right. exists (r1, Some t2). split; [by left|by left].
      * apply elem_of_union in Hacc as [->%elem_of_singleton|?]; [|by left].
        right. exists (r1, None). split; [by left|by left].
    + right. exists row. split; [by right|done].
  - intros [Hacc|(row & Hrow & Ht)].
    + left. destruct r2 as [t2|]; simpl; [destruct (negb _)|]; set_solver.
    + apply elem_of_cons in Hrow as [->|Hrow]; [|right; eauto].
      left. simpl in *. destruct Ht as [->|[-> Hne]].
      * destruct r2 as [t2|]; simpl; [destruct (negb _)|]; set_solver.
      * simpl. destruct (String.eqb t "") eqn:Heq.
        { apply String.eqb_eq in Heq. done. }
        simpl. set_solver.
Qed.

Lemma relevant_true lower pats t :
  relevant lower pats t = true
  ↔ ∃ pattern, pattern ∈ pats ∧ contains (lower pattern) (lower t) = true.
Proof.
  unfold relevant. rewrite existsb_exists.
  split; intros (p & Hp & Hc); exists p; split; try done;
    by apply list_elem_of_In.
Qed.

(** X14.  What [get_relevant_tables] returns: a table is in the list exactly when
    it is a listed table whose lowered name contains a lowered pattern, or
    it is the first table of a row the second query gave for those tables,
    or the non-empty second table of one.  The list has no duplicate,
    [all_tables] becomes its set, and nothing else of the mapper changes.
    This holds whatever function [str.lower] is. *)
Theorem get_relevant_tables_members lower s db ts s' :
  get_relevant_tables lower s db = Some (ts, s') →
  ∃ (listed : list string) (rows : list (string * option string)),
    list_tables db = Some listed
    ∧ (if networked s
       then list_related db
              (elements (list_to_set (C := gset string)
                 (filter (λ t, relevant lower (patterns s) t = true) listed)))
       else Some []) = Some rows
    ∧ (∀ t, t ∈ ts ↔
         (t ∈ listed
          ∧ ∃ pattern, pattern ∈ patterns s
              ∧ contains (lower pattern) (lower t) = true)
         ∨ ∃ row, row ∈ rows
             ∧ (t = fst row ∨ (snd row = Some t ∧ t ≠ "")))
    ∧ NoDup ts
    ∧ s' = set_all_tables (list_to_set ts) s.
Proof.
  unfold get_relevant_tables. intros H.
  destruct (connect s _); [|done]. simpl in H.
  destruct (list_tables db) as [listed|]; [|done]. simpl in H.
  destruct (if networked s then _ else _) as [rows|] eqn:Hrows; [|done].
  simpl in H.
  injection H as <- <-. exists listed, rows. split_and!; try done.
  - intros t. rewrite elem_of_elements, expansion_members.
    rewrite elem_of_list_to_set, list_elem_of_filter, relevant_true. tauto.
  - apply NoDup_elements.
  - f_equal. apply set_eq. intros t.
    by rewrite elem_of_list_to_set, elem_of_elements.
Qed.

Lemma get_relevant_tables_members_witness :
  ∃ (listed : list string) (rows : list (string * option string)),
    list_tables shop_db = Some listed
    ∧ (if networked shop
       then list_related shop_db
              (elements (list_to_set (C := gset string)
                 (filter (λ t, relevant ascii_lower (patterns shop) t = true)
                    listed)))
       else Some []) = Some rows
    ∧ (∀ t, t ∈ fst (default ([], shop)
                       (get_relevant_tables ascii_lower shop shop_db)) ↔
         (t ∈ listed
          ∧ ∃ pattern, pattern ∈ patterns shop
              ∧ contains (ascii_lower pattern) (ascii_lower t) = true)
         ∨ ∃ row, row ∈ rows
             ∧ (t = fst row ∨ (snd row = Some t ∧ t ≠ "")))
    ∧ NoDup (fst (default ([], shop)
                    (get_relevant_tables ascii_lower shop shop_db)))
    ∧ snd (default ([], shop) (get_relevant_tables ascii_lower shop shop_db))
      = set_all_tables
          (list_to_set (fst (default ([], shop)
                               (get_relevant_tables ascii_lower shop shop_db))))
          shop.
Proof.
  apply (get_relevant_tables_members ascii_lower shop shop_db).
  vm_compute. reflexivity.
Defined.

(** With a lowering that knows the letters of the names, discovery and
    search find an accented table from a pattern in the other case. *)
Lemma accented_names_found :
  fst <$> get_relevant_tables lower_sample
            (__init__ lower_sample "postgresql" {["database" := "erp"]}
               (Some ["AÇÃO"]) no_files)
            (Database true (Some ["cliente"; "transação"]) (λ _, Some []) true
               (λ _, Some []) (λ _, Some []))
  = Some ["transação"]
  ∧ search_tables lower_sample
      (set_table_columns {["TRANSAÇÃO" := id_column; "cliente" := id_column]}
         shop) "ação"
    = ["TRANSAÇÃO"].
Proof. by vm_compute. Qed.

(** ** Ancillary queries *)

Lemma string_leb_total : Total (λ a b : string, String.leb a b).
Proof.
  intros a b. destruct (String.leb_total a b) as [H|H]; rewrite H;
    [by left|by right].
Qed.

(** X15.  [search_tables] returns exactly the tables in scope whose lowered name
    contains the lowered pattern, each once, in ascending order, whatever
    function [str.lower] is. *)
Theorem search_tables_complete_sorted lower s pattern :
  (∀ t, t ∈ search_tables lower s pattern
        ↔ is_Some (table_columns s !! t)
          ∧ contains (lower pattern) (lower t) = true)
  ∧ NoDup (search_tables lower s pattern)
  ∧ Sorted (λ a b : string, String.leb a b) (search_tables lower s pattern).
Proof.
  unfold search_tables, sorted. split_and!.
  - intros t. rewrite merge_sort_Permutation, list_elem_of_filter.
    rewrite list_elem_of_fmap. split.
    + intros [Hc ([t' x] & -> & Hin)]. apply elem_of_map_to_list in Hin.
      simpl. eauto.
    + intros [[x Hx] Hc]. split; [done|]. exists (t, x).
      split; [done|]. by apply elem_of_map_to_list.
  - rewrite merge_sort_Permutation. apply NoDup_filter.
    apply NoDup_fst_map_to_list.
  - apply @Sorted_merge_sort. apply string_leb_total.
Qed.

Lemma contains_app_r needle x y :
  contains needle y = true → contains needle (x +:+ y) = true.
Proof.
  intros Hy. induction x as [|c x IH]; [done|].
  change (String c x +:+ y) with (String c (x +:+ y)).
  cbn [contains]. rewrite IH. apply orb_true_r.
Qed.

Lemma prefix_app needle y : String.prefix needle (needle +:+ y) = true.
Proof.
  induction needle as [|c n IH]; [by destruct y|].
  simpl. by destruct (ascii_dec c c).
Qed.

Lemma contains_prefix needle hay :
  String.prefix needle hay = true → contains needle hay = true.
Proof. intros H. destruct hay; cbn [contains]; by rewrite H. Qed.

Lemma contains_here needle y : contains needle (needle +:+ y) = true.
Proof. apply contains_prefix, prefix_app. Qed.

Lemma forward_label_arrow a b : contains "-->" (forward_label a b) = true.
Proof.
  unfold forward_label. do 2 apply contains_app_r. apply contains_here.
Qed.

Lemma reverse_label_arrow a b : contains "<--" (reverse_label a b) = true.
Proof. unfold reverse_label. apply contains_here. Qed.

Lemma walk_odd s source p t : walk s source p t → Nat.Odd (length p).
Proof.
  induction 1 as [|p a l b _ [k Hk] _]; [by exists O|].
  exists (S k). rewrite length_app. simpl. lia.
Qed.

(** X16.  The table filter of the display, which drops every element with an
    arrow in it, keeps exactly the tables of a path of the graph, in order,
    when no table name on the path has an arrow in it. *)
Theorem tables_only_table_nodes s source p t :
  walk s source p t →
  Forall arrow_free (table_nodes p) →
  tables_only p = table_nodes p.
Proof.
  induction 1 as [|p a l b Hp IH Hhop]; intros Hfree.
  - apply Forall_singleton in Hfree as [H1 H2]. unfold tables_only.
    rewrite filter_cons, decide_True; [done|]. rewrite H1, H2. by intros [|].
  - rewrite table_nodes_snoc in * by (by eapply walk_odd).
    apply Forall_app in Hfree as [Hfree [Hb1 Hb2]%Forall_singleton].
    unfold tables_only in *. rewrite filter_app, IH by done. f_equal.
    rewrite filter_cons, decide_False; cycle 1.
    { intros Hn. apply Hn.
      destruct Hhop; [left; apply forward_label_arrow
                     |right; apply reverse_label_arrow]. }
    rewrite filter_cons, decide_True; [done|]. rewrite Hb1, Hb2. by intros [|].
Qed.

Lemma tables_only_table_nodes_witness :
  tables_only ["users"; reverse_label "id" "user_id"; "orders"]
  = table_nodes ["users"; reverse_label "id" "user_id"; "orders"].
Proof.
  apply (tables_only_table_nodes shop "users" _ "orders").
  - apply (walk_hop shop "users" ["users"] "users"); [apply walk_start|].
    apply hop_reverse. vm_compute. by left.
  - repeat constructor.
Defined.

(** ** Clearing the path cache *)

(** X17.  After [clear_cache] every query is searched afresh: for two different
    tables in scope, [find_path] returns walks of the present graph, the
    path cache then holds the entry of this query and no other, and the
    file holds the same. *)
Theorem clear_cache_searches_afresh now s d source target max_depth :
  in_scope s source target → source ≠ target →
  ∃ ps s' d',
    find_path now (fst (clear_cache s d)) (snd (clear_cache s d))
      source target max_depth = Some (ps, s', d')
    ∧ Forall (λ p : path, walk s source p target) ps
    ∧ path_cache s'
      = {[_get_cache_key source target max_depth
          := CacheEntry ps now source target max_depth]}
    ∧ path_cache_file d' = Some (path_cache s').
Proof.
  intros [Hs Ht] Hne.
  destruct (find_path_miss now (fst (clear_cache s d)) (snd (clear_cache s d))
              source target max_depth) as (ps & Hps & ->); try done.
  eexists ps, _, _. split; [done|]. split_and!; try done.
  eapply (search_walks (set_path_cache ∅ s)) in Hps; [|by repeat constructor..].
  eapply Forall_impl; [exact Hps|]. intros p Hp. clear -Hp.
  induction Hp as [|p a l b _ IH Hhop]; [constructor|].
  econstructor; [exact IH|]. destruct Hhop; by constructor.
Qed.

Lemma clear_cache_searches_afresh_witness :
  ∃ ps s' d',
    find_path "t1" (fst (clear_cache shop_cached no_files))
      (snd (clear_cache shop_cached no_files)) "users" "orders" 3
    = Some (ps, s', d')
    ∧ Forall (λ p : path, walk shop_cached "users" p "orders") ps
    ∧ path_cache s'
      = {[_get_cache_key "users" "orders" 3
          := CacheEntry ps "t1" "users" "orders" 3]}
    ∧ path_cache_file d' = Some (path_cache s').
Proof.
  apply (clear_cache_searches_afresh "t1" shop_cached no_files "users" "orders" 3).
  - split; vm_compute; eauto.
  - discriminate.
Defined.
